(** * Notebook-Library: the search index, the persistent Notepad tree and its
    flat projection.

    The development follows the TypeScript sources:
    - [SearchIndex]  : src/SearchIndex.ts  (classes Trie and TrieNode);
    - [Store], [NotepadTree] : the Notepad class (addSection, addAsset,
      modified, clone) over an explicit object store;
    - [SectionNote] : the append operations of Section and Note;
    - [Flat] : [Notepad.flatten], the flat projection and its reconstruction;
    - [NoteSearch] : the title and hashtag search of a Note.

    Strings are [string]; one [ascii] stands for one character as produced by
    the iteration [...key].  JavaScript objects with identity live in a store
    and are named by their location. *)

From Stdlib Require Import ZArith Lia Ascii String.
From stdpp Require Import base option list strings gmap sorting.

#[local] Set Warnings "-register-all,-clear-no-such-hyp".
Local Open Scope string_scope.
Local Open Scope list_scope.

(** ** Generic list helpers *)

(** [[...new Set(xs)]]: the elements of [xs] in order of first occurrence.
    [seen] holds what the Set already contains. *)
Fixpoint dedup_from (seen xs : list string) : list string :=
  match xs with
  | [] => []
  | x :: rest =>
      if bool_decide (x ∈ seen) then dedup_from seen rest
      else x :: dedup_from (x :: seen) rest
  end.

Definition dedup (xs : list string) : list string := dedup_from [] xs.

(** [s.charAt(0) === '#'] *)
Definition startsWithHash (s : string) : bool :=
  match s with
  | String c _ => bool_decide (c = "#"%char)
  | EmptyString => false
  end.

Module SearchIndex.

(** *** class TrieNode *)

Inductive TrieNode : Type :=
  MkTrieNode (key : ascii) (notes : list string)
             (children : list (ascii * TrieNode)).

Definition key (n : TrieNode) : ascii :=
  match n with MkTrieNode k _ _ => k end.
Definition notes (n : TrieNode) : list string :=
  match n with MkTrieNode _ ns _ => ns end.
Definition children (n : TrieNode) : list (ascii * TrieNode) :=
  match n with MkTrieNode _ _ cs => cs end.

(** [new TrieNode(key)]; the default key is the NUL character. *)
Definition newTrieNode (k : ascii) : TrieNode := MkTrieNode k [] [].
Definition rootKey : ascii := "000"%char.

(** The [children] object is a list of properties in the order in which
    [Object.values] enumerates them: properties whose name is an array index
    (for one-character names: a decimal digit) come first, in ascending order,
    the others follow in insertion order. *)
Definition isIndexKey (c : ascii) : bool :=
  (48 <=? nat_of_ascii c)%nat && (nat_of_ascii c <=? 57)%nat.

(** [children[ch]] *)
Fixpoint getChild (ch : ascii) (cs : list (ascii * TrieNode)) : option TrieNode :=
  match cs with
  | [] => None
  | (d, n) :: rest => if bool_decide (ch = d) then Some n else getChild ch rest
  end.

(** [children[ch] = n]: an existing property keeps its place, a new one is
    placed by the enumeration order above. *)
Fixpoint setChild (ch : ascii) (n : TrieNode) (cs : list (ascii * TrieNode))
  : list (ascii * TrieNode) :=
  match cs with
  | [] => [(ch, n)]
  | (d, m) :: rest =>
      if bool_decide (ch = d) then (ch, n) :: rest
      else if isIndexKey ch
              && (negb (isIndexKey d) || (nat_of_ascii ch <? nat_of_ascii d)%nat)
           then (ch, n) :: (d, m) :: rest
           else (d, m) :: setChild ch n rest
  end.

(** [getAllFrom()]: the node's notes followed by the reduction of the
    children's results with [concat]. *)
Fixpoint getAllFrom (n : TrieNode) : list string :=
  match n with
  | MkTrieNode _ ns cs =>
      ns ++ fold_left (fun acc kv => acc ++ getAllFrom (snd kv)) cs []
  end.

(** *** class Trie *)

(** [Date.prototype.getTime()]: milliseconds since the epoch, or NaN for an
    invalid Date ([None]). *)
Definition Time := option Z.

(** [a > b] on the results of [getTime()]; a comparison with NaN is false. *)
Definition timeGt (a b : Time) : bool :=
  match a, b with
  | Some x, Some y => (y <? x)%Z
  | _, _ => false
  end.

(** [_size] counts calls; it stays in the range where a JavaScript number is
    an exact integer. *)
Record Trie : Type := MkTrie {
  root : TrieNode;
  lastModified : Time;
  hashtags : gmap string (list string);
  _size : Z
}.

(** [new Trie(lastModified)] *)
Definition newTrie (lm : Time) : Trie :=
  {| root := newTrieNode rootKey; lastModified := lm; hashtags := ∅; _size := 0 |}.

(** [get size()] *)
Definition size (t : Trie) : Z := _size t.

(** [shouldReindex(lastModified, numberOfNotes)]; [numberOfNotes] is a
    count, an integer. *)
Definition shouldReindex (t : Trie) (lm : Time) (numberOfNotes : Z) : bool :=
  timeGt (lastModified t) lm || negb (numberOfNotes =? size t)%Z.

(** The loop of [add] over [keyChars], followed by [node.notes.push(ref)].
    The nodes on the path are updated in place; here the updated path is
    rebuilt and stored back under the same property. *)
Fixpoint insertAt (keyChars : list ascii) (ref : string) (node : TrieNode) : TrieNode :=
  match keyChars with
  | [] => MkTrieNode (key node) (notes node ++ [ref]) (children node)
  | ch :: rest =>
      let child := match getChild ch (children node) with
                   | Some c => c
                   | None => newTrieNode ch
                   end in
      MkTrieNode (key node) (notes node)
                 (setChild ch (insertAt rest ref child) (children node))
  end.

(** [add(key, ref)] *)
Definition add (t : Trie) (k ref : string) : Trie :=
  if startsWithHash k then
    let bucket := default [] (hashtags t !! k) in
    if bool_decide (ref ∈ bucket) then t
    else {| root := root t; lastModified := lastModified t;
            hashtags := <[k := bucket ++ [ref]]> (hashtags t);
            _size := _size t |}
  else
    {| root := insertAt (list_ascii_of_string k) ref (root t);
       lastModified := lastModified t;
       hashtags := hashtags t;
       _size := (_size t + 1)%Z |}.

(** The loop of [search] over [keyChars]: [None] is the early [return []]. *)
Fixpoint descend (keyChars : list ascii) (node : TrieNode) : option TrieNode :=
  match keyChars with
  | [] => Some node
  | ch :: rest =>
      match getChild ch (children node) with
      | None => None
      | Some c => descend rest c
      end
  end.

(** [search(query)] *)
Definition search (t : Trie) (query : string) : list string :=
  if startsWithHash query then default [] (hashtags t !! query)
  else match descend (list_ascii_of_string query) (root t) with
       | None => []
       | Some node => dedup (getAllFrom node)
       end.

(** A Trie as the program can hold one: created by [new Trie] and changed by
    calls of [add] only (its fields are private). *)
Definition addAll (t : Trie) (ops : list (string * string)) : Trie :=
  fold_left (fun acc kr => add acc (fst kr) (snd kr)) ops t.

Definition built (lm : Time) (ops : list (string * string)) : Trie :=
  addAll (newTrie lm) ops.

(** [m] is the node [n] or a node of the subtree below [n]. *)
Inductive within (m : TrieNode) : TrieNode → Prop :=
  | within_here : within m m
  | within_child n ch c : (ch, c) ∈ children n → within m c → within m n.

(** The calls of [add] of a history that went to the trie of titles. *)
Definition titleOps (ops : list (string * string)) : list (string * string) :=
  filter (λ kr, startsWithHash (fst kr) = false) ops.

(** "The index's timestamp is strictly after [lm]" on [getTime()] values. *)
Definition strictlyAfter (a b : Time) : Prop :=
  ∃ x y : Z, a = Some x ∧ b = Some y ∧ (y < x)%Z.

(** What the loop of [search] reaches: the gathered notes of the node at the
    end of the path, nothing when the path breaks off. *)
Definition found (keyChars : list ascii) (node : TrieNode) : list string :=
  match descend keyChars node with
  | Some m => getAllFrom m
  | None => []
  end.

(** [d] is listed before [e] by [Object.values]: index keys in ascending
    order, then the other keys, each once. *)
Definition jsBefore (d e : ascii) : Prop :=
  if isIndexKey d then
    if isIndexKey e then (nat_of_ascii d < nat_of_ascii e)%nat else True
  else
    if isIndexKey e then False else d ≠ e.

(** The properties of every [children] object at and below the node are in
    the order of [Object.values]. *)
Fixpoint wellKeyed (n : TrieNode) : Prop :=
  match n with
  | MkTrieNode _ _ cs =>
      StronglySorted jsBefore (map fst cs)
      ∧ fold_right (λ kv P, wellKeyed (snd kv) ∧ P) True cs
  end.

(** A small index used to exercise the statements below. *)
Definition sampleTrie : Trie :=
  built (Some 0%Z) [("cat", "ref1"); ("car", "ref2"); ("#todo", "refA")].

(** Every hashtag bucket is duplicate-free. *)
Definition bucketsNoDup (t : Trie) : Prop :=
  ∀ k, NoDup (default [] (hashtags t !! k)).

End SearchIndex.

(** ** The object store *)

Module Store.

(** A location names one JavaScript object; two references are identical
    ([===], Jest's [toBe]) exactly when their locations are equal. *)
Abbreviation loc := nat (only parsing).

(** Modelled from the spec: the Asset class is not among the sources; an
    Asset is "identity + binary payload", of which [addAsset] reads [uuid]. *)
Record Asset : Type := MkAsset { uuid : string; data : string }.

(** [NoteElement] and [Source] as the tests of Note build them. *)
Record NoteElement : Type := MkNoteElement {
  el_type : string;
  el_content : string;
  el_args : list (string * string)
}.

Record Source : Type := MkSource {
  src_id : Z;
  src_item : string;
  src_content : string
}.

(** The fields of a Notepad object (class Notepad). *)
Record NotepadObj : Type := MkNotepadObj {
  np_title : string;
  np_lastModified : string;
  np_sections : list loc;
  np_notepadAssets : list string;
  np_assets : list Asset
}.

(** Modelled from the spec: the Section class is not among the sources.  A
    Section has a title, a stable identifier, ordered child Sections, ordered
    child Notes and a back-reference to its parent (a Section or a Notepad);
    [Notepad.addSection] writes the field [parent]. *)
Record SectionObj : Type := MkSectionObj {
  sec_title : string;
  sec_internalRef : string;
  sec_sections : list loc;
  sec_notes : list loc;
  sec_parent : option loc
}.

(** Modelled from the spec: the Note class is not among the sources.  A Note
    has a title, a timestamp, ordered elements, an ordered bibliography, a
    stable identifier and a back-reference to its owning Section.  Element
    contents are held as given (already in the normal form that construction
    gives to markdown check lists). *)
Record NoteObj : Type := MkNoteObj {
  note_title : string;
  note_time : Z;
  note_elements : list NoteElement;
  note_bibliography : list Source;
  note_internalRef : string;
  note_parent : option loc
}.

Inductive Obj : Type :=
  | ONotepad (np : NotepadObj)
  | OSection (s : SectionObj)
  | ONote (n : NoteObj).

(** The store: object number [l] is at index [l]; [new] appends. *)
Abbreviation heap := (list Obj) (only parsing).

Definition alloc (h : heap) (o : Obj) : heap * loc := (h ++ [o], length h).

Definition getNotepad (h : heap) (l : loc) : option NotepadObj :=
  match h !! l with Some (ONotepad np) => Some np | _ => None end.

Definition getSection (h : heap) (l : loc) : option SectionObj :=
  match h !! l with Some (OSection s) => Some s | _ => None end.

Definition getNote (h : heap) (l : loc) : option NoteObj :=
  match h !! l with Some (ONote n) => Some n | _ => None end.

(** [(p as Section).internalRef] for a parent object [p].  A parent is a
    Section or a Notepad (the type Parent); a Notepad has no field
    [internalRef], the read gives [undefined] (the inner [None]).  A Note is
    not a Parent (the outer [None]). *)
Definition internalRefOfParent (o : Obj) : option (option string) :=
  match o with
  | ONotepad _ => Some None
  | OSection s => Some (Some (sec_internalRef s))
  | ONote _ => None
  end.

Definition withSectionParent (s : SectionObj) (p : option loc) : SectionObj :=
  {| sec_title := sec_title s; sec_internalRef := sec_internalRef s;
     sec_sections := sec_sections s; sec_notes := sec_notes s;
     sec_parent := p |}.

Definition withNoteParent (n : NoteObj) (p : option loc) : NoteObj :=
  {| note_title := note_title n; note_time := note_time n;
     note_elements := note_elements n;
     note_bibliography := note_bibliography n;
     note_internalRef := note_internalRef n; note_parent := p |}.

(** [section.parent = p], an assignment to a field of the object at
    [section]; it is an error ([None]) when that object is not a Section. *)
Definition setSectionParent (h : heap) (section p : loc) : option heap :=
  s ← getSection h section;
  Some (<[section := OSection (withSectionParent s (Some p))]> h).

(** [note.parent = p] *)
Definition setNoteParent (h : heap) (note p : loc) : option heap :=
  n ← getNote h note;
  Some (<[note := ONote (withNoteParent n (Some p))]> h).

(** Every object that exists in [h] is the same in [h']. *)
Definition unaltered (h h' : heap) : Prop :=
  ∀ l o, h !! l = Some o → h' !! l = Some o.

(** Every object that exists in [h], other than [l0], is the same in [h']. *)
Definition unalteredExcept (l0 : loc) (h h' : heap) : Prop :=
  ∀ l o, l ≠ l0 → h !! l = Some o → h' !! l = Some o.

(** The object at [child] is the same in [h'] but for its field [parent],
    which refers to [p]. *)
Definition reparented (h h' : heap) (child p : loc) : Prop :=
  match h !! child, h' !! child with
  | Some (OSection s), Some (OSection s') => s' = withSectionParent s (Some p)
  | Some (ONote n), Some (ONote n') => n' = withNoteParent n (Some p)
  | _, _ => False
  end.

End Store.

(** ** class Notepad *)

(** The functions [format] and [parse] of date-fns and the type of Date
    values are taken as given. *)
Class DateFns : Type := {
  Date : Type;
  format : Date → string;
  parse : string → Date
}.

Module NotepadTree.
Import Store.

(** [NotepadOptions]: every field is optional; [None] is a field that is not
    there (a field that is there always holds a value of its type). *)
Record NotepadOptions `{DateFns} : Type := MkNotepadOptions {
  opt_lastModified : option Date;
  opt_sections : option (list loc);
  opt_notepadAssets : option (list string);
  opt_assets : option (list Asset)
}.

Section Notepad.
Context `{DateFns}.

(** The value of [new Date()] at the time of the call. *)
Variable now : Date.

Definition noOptions : NotepadOptions :=
  {| opt_lastModified := None; opt_sections := None;
     opt_notepadAssets := None; opt_assets := None |}.

(** [constructor(title, opts = {})].  A Date and an array are truthy, so
    each [opts.x || d] is [d] exactly when the field is missing. *)
Definition newNotepad (title : string) (opts : NotepadOptions) : NotepadObj :=
  {| np_title := title;
     np_lastModified := format (default now (opt_lastModified opts));
     np_sections := default [] (opt_sections opts);
     np_notepadAssets := default [] (opt_notepadAssets opts);
     np_assets := default [] (opt_assets opts) |}.

(** [{ lastModified: parse(this.lastModified), sections: this.sections,
       notepadAssets: this.notepadAssets, assets: this.assets, ...opts }] *)
Definition cloneOptions (this : NotepadObj) (opts : NotepadOptions) : NotepadOptions :=
  {| opt_lastModified :=
       Some (default (parse (np_lastModified this)) (opt_lastModified opts));
     opt_sections := Some (default (np_sections this) (opt_sections opts));
     opt_notepadAssets :=
       Some (default (np_notepadAssets this) (opt_notepadAssets opts));
     opt_assets := Some (default (np_assets this) (opt_assets opts)) |}.

(** [clone(opts = {}, title = this.title)]: the fields of the new object. *)
Definition cloneObj (this : NotepadObj) (opts : NotepadOptions)
    (title : option string) : NotepadObj :=
  newNotepad (default (np_title this) title) (cloneOptions this opts).

(** [clone], as a method: allocates the new Notepad. *)
Definition clone (h : heap) (this : loc) (opts : NotepadOptions)
    (title : option string) : option (heap * loc) :=
  np ← getNotepad h this;
  Some (alloc h (ONotepad (cloneObj np opts title))).

(** [addSection(section)] *)
Definition addSection (h : heap) (this section : loc) : option (heap * loc) :=
  np ← getNotepad h this;
  '(h1, notepad) ←
    clone h this
      {| opt_lastModified := None;
         opt_sections := Some (np_sections np ++ [section]);
         opt_notepadAssets := None; opt_assets := None |} None;
  h2 ← setSectionParent h1 section notepad;
  Some (h2, notepad).

(** [addAsset(asset)] *)
Definition addAsset (h : heap) (this : loc) (asset : Asset) : option (heap * loc) :=
  np ← getNotepad h this;
  clone h this
    {| opt_lastModified := None; opt_sections := None;
       opt_notepadAssets := Some (np_notepadAssets np ++ [uuid asset]);
       opt_assets := Some (np_assets np ++ [asset]) |} None.

(** [modified(lastModified = new Date())] *)
Definition modified (h : heap) (this : loc) (lastModified : option Date)
  : option (heap * loc) :=
  clone h this
    {| opt_lastModified := Some (default now lastModified);
       opt_sections := None; opt_notepadAssets := None; opt_assets := None |}
    None.

(** The methods of Notepad that return a Notepad. *)
Inductive NotepadOp : Type :=
  | OpAddSection (section : loc)
  | OpAddAsset (asset : Asset)
  | OpModified (lastModified : option Date)
  | OpClone (opts : NotepadOptions) (title : option string).

Definition runOp (h : heap) (this : loc) (op : NotepadOp) : option (heap * loc) :=
  match op with
  | OpAddSection s => addSection h this s
  | OpAddAsset a => addAsset h this a
  | OpModified d => modified h this d
  | OpClone opts title => clone h this opts title
  end.

(** An operation that does not hand [clone] a replacement for the asset
    lists: everything but [clone(opts)] with [assets] or [notepadAssets]. *)
Definition keepsAssetLists (op : NotepadOp) : Prop :=
  match op with
  | OpClone opts _ => opt_assets opts = None ∧ opt_notepadAssets opts = None
  | _ => True
  end.

(** The assets an operation adds through [addAsset]. *)
Definition assetsAdded (op : NotepadOp) : list Asset :=
  match op with
  | OpAddAsset a => [a]
  | _ => []
  end.

(** A sequence of calls, each on the Notepad the previous one returned. *)
Fixpoint runOps (h : heap) (this : loc) (ops : list NotepadOp)
  : option (heap * loc) :=
  match ops with
  | [] => Some (h, this)
  | op :: rest =>
      match runOp h this op with
      | None => None
      | Some (h', this') => runOps h' this' rest
      end
  end.

End Notepad.

(** What an operation on [this] that returned [res] did to the store: the
    object it returns is new (so it is not the receiver, nor any object that
    existed), and every object that existed is as it was, but for the
    [child] handed to [addSection] or [addNote], of which the field [parent]
    alone was written (it now refers to the new object). *)
Definition pureStep (h : heap) (this : loc) (child : option loc)
    (res : option (heap * loc)) : Prop :=
  ∀ h' r, res = Some (h', r) →
    h !! r = None ∧ is_Some (h' !! r) ∧ r ≠ this ∧
    (Some this ≠ child → h' !! this = h !! this) ∧
    match child with
    | None => unaltered h h'
    | Some c => unalteredExcept c h h' ∧ reparented h h' c r
    end.

(** Every asset of the Notepad has its uuid in the list of identifiers in
    use. *)
Definition assetsInUse (np : NotepadObj) : Prop :=
  ∀ a, a ∈ np_assets np → uuid a ∈ np_notepadAssets np.

(** The purity contract in its strict wording: the result is not the
    receiver, the receiver is as it was, and so is every object that
    existed. *)
Definition strictlyPure (h : heap) (this : loc) (res : option (heap * loc)) : Prop :=
  ∀ h' r, res = Some (h', r) →
    r ≠ this ∧ h' !! this = h !! this ∧ unaltered h h'.

(** Dates as their text, to run the operations on examples. *)
Definition textDates : DateFns := {| Date := string; format := id; parse := id |}.

Definition emptyNotepad : NotepadObj :=
  @newNotepad textDates "2018-01-01" "notes" (@noOptions textDates).

(** A store with two Notepads and one Section, which the second Notepad
    holds and to which the back-reference of the Section refers. *)
Definition sharedSectionStore : heap :=
  [ ONotepad emptyNotepad;
    ONotepad {| np_title := "other"; np_lastModified := "2018-01-01";
                np_sections := [2%nat]; np_notepadAssets := [];
                np_assets := [] |};
    OSection {| sec_title := "s"; sec_internalRef := "ref-s";
                sec_sections := []; sec_notes := [];
                sec_parent := Some 1%nat |} ].

Definition sampleAsset : Asset := {| uuid := "uuid-1"; data := "payload" |}.

(** [clone({ notepadAssets: [] })] *)
Definition dropIdentifiers : @NotepadOp textDates :=
  @OpClone textDates
    {| opt_lastModified := None; opt_sections := None;
       opt_notepadAssets := Some []; opt_assets := None |} None.

End NotepadTree.

(** ** Sections and Notes *)

Module SectionNote.
Import Store.

(** Modelled from the spec: [new Section(title)], with the identifier minted
    at creation passed in as [ref]. *)
Definition newSection (title ref : string) : SectionObj :=
  {| sec_title := title; sec_internalRef := ref; sec_sections := [];
     sec_notes := []; sec_parent := None |}.

(** Modelled from the spec: [new Note(title, time, elements, bibliography,
    internalRef)]. *)
Definition newNote (title : string) (time : Z) (elements : list NoteElement)
    (bibliography : list Source) (ref : string) : NoteObj :=
  {| note_title := title; note_time := time; note_elements := elements;
     note_bibliography := bibliography; note_internalRef := ref;
     note_parent := None |}.

(** Modelled from the spec: [Section.addSection(section)] "appends an
    insertion-ordered child, producing a new parent and setting the new
    child's parent back-reference to the new parent object"; the identifier
    is preserved by the copy. *)
Definition addSection (h : heap) (this section : loc) : option (heap * loc) :=
  s ← getSection h this;
  _ ← getSection h section;
  let '(h1, parent) :=
    alloc h (OSection {| sec_title := sec_title s;
                         sec_internalRef := sec_internalRef s;
                         sec_sections := sec_sections s ++ [section];
                         sec_notes := sec_notes s;
                         sec_parent := sec_parent s |}) in
  h2 ← setSectionParent h1 section parent;
  Some (h2, parent).

(** Modelled from the spec: [Section.addNote(note)], the analogous append for
    a child Note, whose back-reference is set to the new Section. *)
Definition addNote (h : heap) (this note : loc) : option (heap * loc) :=
  s ← getSection h this;
  _ ← getNote h note;
  let '(h1, parent) :=
    alloc h (OSection {| sec_title := sec_title s;
                         sec_internalRef := sec_internalRef s;
                         sec_sections := sec_sections s;
                         sec_notes := sec_notes s ++ [note];
                         sec_parent := sec_parent s |}) in
  h2 ← setNoteParent h1 note parent;
  Some (h2, parent).

(** Modelled from the spec: [Note.addElement(element)] appends to the ordered
    elements of a new Note. *)
Definition addElement (h : heap) (this : loc) (element : NoteElement)
  : option (heap * loc) :=
  n ← getNote h this;
  Some (alloc h (ONote {| note_title := note_title n; note_time := note_time n;
                          note_elements := note_elements n ++ [element];
                          note_bibliography := note_bibliography n;
                          note_internalRef := note_internalRef n;
                          note_parent := note_parent n |})).

(** Modelled from the spec: [Note.addSource(source)] appends to the ordered
    bibliography of a new Note. *)
Definition addSource (h : heap) (this : loc) (source : Source)
  : option (heap * loc) :=
  n ← getNote h this;
  Some (alloc h (ONote {| note_title := note_title n; note_time := note_time n;
                          note_elements := note_elements n;
                          note_bibliography := note_bibliography n ++ [source];
                          note_internalRef := note_internalRef n;
                          note_parent := note_parent n |})).

End SectionNote.

(** ** Flattening *)

Module Flat.
Import Store.

(** [FlatSection]: [{ title, internalRef, parentRef? }].  A property that
    holds [undefined] reads like a missing one; both are [None]. *)
Record FlatSection : Type := MkFlatSection {
  fs_title : string;
  fs_internalRef : string;
  fs_parentRef : option string
}.

(** [xs.forEach(x => notepad = f(notepad, x))], where a step may fail. *)
Fixpoint forEach {FN A : Type} (f : FN → A → option FN) (xs : list A) (acc : FN)
  : option FN :=
  match xs with
  | [] => Some acc
  | x :: rest => match f acc x with
                 | None => None
                 | Some acc' => forEach f rest acc'
                 end
  end.

(** [if (x.parent) ref = (x.parent as Section).internalRef]: the identifier
    behind an optional back-reference [p].  The outer [None] is a reference
    to nothing or to an object that is not a Parent, which no value of the
    field's type is. *)
Definition refBehind (h : heap) (p : option loc) : option (option string) :=
  match p with
  | None => Some None
  | Some pl => o ← h !! pl; internalRefOfParent o
  end.

(** The object [flat] that [flattenSection] makes for a Section:
    [{ title, internalRef }], and [parentRef] when [section.parent] is set. *)
Definition descriptor (h : heap) (s : SectionObj) : option FlatSection :=
  r ← refBehind h (sec_parent s);
  Some {| fs_title := sec_title s; fs_internalRef := sec_internalRef s;
          fs_parentRef := r |}.

Section Flatten.
Context `{DateFns}.

(** The FlatNotepad class is not among the sources; [flatten] uses its
    constructor and its methods [addSection] and [addNote]. *)
Variable FN : Type.
Variable newFlatNotepad : string → Date → list string → FN.
Variable flatAddSection : FN → FlatSection → FN.
Variable flatAddNote : heap → FN → loc → option FN.

(** The closure [flattenSection] of [Notepad.flatten]; [notepad] is the
    captured variable.  The recursion follows references through the store,
    [fuel] bounds its depth. *)
Fixpoint flattenSection (fuel : nat) (h : heap) (notepad : FN) (section : loc)
  : option FN :=
  match fuel with
  | O => None
  | S fuel' =>
      s ← getSection h section;
      flat ← descriptor h s;
      notepad ← forEach (flatAddNote h) (sec_notes s) (flatAddSection notepad flat);
      forEach (flattenSection fuel' h) (sec_sections s) notepad
  end.

(** [flatten()] *)
Definition flatten (fuel : nat) (h : heap) (this : loc) : option FN :=
  np ← getNotepad h this;
  forEach (flattenSection fuel h) (np_sections np)
    (newFlatNotepad (np_title np) (parse (np_lastModified np))
                    (np_notepadAssets np)).

End Flatten.

(** *** A FlatNotepad that records the calls it receives *)

Inductive Emitted : Type :=
  | EmitSection (flat : FlatSection)
  | EmitNote (note : loc).

Definition emittedSections (log : list Emitted) : list FlatSection :=
  omap (λ e, match e with EmitSection flat => Some flat | EmitNote _ => None end) log.

Definition logSection (log : list Emitted) (flat : FlatSection) : list Emitted :=
  log ++ [EmitSection flat].

Definition logNote (h : heap) (log : list Emitted) (note : loc)
  : option (list Emitted) :=
  Some (log ++ [EmitNote note]).

Definition flattenSectionLog :=
  flattenSection (list Emitted) logSection logNote.

(** [flatten] run against the recorder: the calls of [addSection] and
    [addNote] in the order in which [flatten] makes them. *)
Definition flattenLog `{DateFns} (fuel : nat) (h : heap) (this : loc)
  : option (list Emitted) :=
  flatten (list Emitted) (λ _ _ _, []) logSection logNote fuel h this.

(** Every entry of the log is the descriptor of a Section of the store. *)
Definition describesSections (h : heap) (log : list Emitted) : Prop :=
  ∀ flat, EmitSection flat ∈ log →
    ∃ s sec, h !! s = Some (OSection sec) ∧ descriptor h sec = Some flat.

(** The Section at [s] is the Section at [l] or one held below it. *)
Inductive below (h : heap) (s : loc) : loc → Prop :=
  | below_here : below h s s
  | below_child l sec c :
      h !! l = Some (OSection sec) → c ∈ sec_sections sec →
      below h s c → below h s l.

(** The Sections at and below [l] can be read within [fuel] levels, and
    each of their back-references is unset or refers to a Parent. *)
Fixpoint readable (fuel : nat) (h : heap) (l : loc) : bool :=
  match fuel with
  | O => false
  | S fuel' =>
      match getSection h l with
      | None => false
      | Some s =>
          bool_decide (is_Some (refBehind h (sec_parent s)))
          && forallb (readable fuel' h) (sec_sections s)
      end
  end.

(** The parent of the Section is itself a Section, with identifier [r]. *)
Definition parentIsSection (h : heap) (s : SectionObj) (r : string) : Prop :=
  ∃ pl ps, sec_parent s = Some pl ∧ h !! pl = Some (OSection ps)
           ∧ sec_internalRef ps = r.

(** The back-reference of the Section is unset or refers to a Notepad. *)
Definition parentIsNotepadOrUnset (h : heap) (s : SectionObj) : Prop :=
  sec_parent s = None ∨
  ∃ pl np, sec_parent s = Some pl ∧ h !! pl = Some (ONotepad np).

(** A Notepad whose only Section is also held by another Section: the state
    after [p.addSection(s)] followed by [t.addSection(s)]. *)
Definition twiceHeldRun : option (heap * loc) :=
  let h0 := [ ONotepad NotepadTree.emptyNotepad;
              OSection (SectionNote.newSection "s" "ref-s");
              OSection (SectionNote.newSection "t" "ref-t") ] in
  '(h1, p1) ← @NotepadTree.addSection NotepadTree.textDates "2018-01-02" h0 0 1;
  '(h2, _) ← SectionNote.addSection h1 2 1;
  Some (h2, p1).

(** *** The flat projection *)

(** Modelled from the spec: a Note as the flat projection holds it, "the Note
    itself, keyed by its own internalRef, with its owning Section's
    internalRef recorded as the note's parent link". *)
Record FlatNote : Type := MkFlatNote {
  fn_title : string;
  fn_time : Z;
  fn_elements : list NoteElement;
  fn_bibliography : list Source;
  fn_internalRef : string;
  fn_parent : option string
}.

(** Modelled from the spec: the FlatNotepad class is not among the sources.
    It holds "two identifier-keyed mappings (flat sections, flat notes) plus
    the Notepad's title, timestamp, and asset-identifier list".  The mappings
    keep insertion order (a new key goes last, a known key keeps its place),
    the choice the spec prefers. *)
Record FlatNotepad : Type := MkFlatNotepad {
  flat_title : string;
  flat_lastModified : string;
  flat_notepadAssets : list string;
  flat_sections : list (string * FlatSection);
  flat_notes : list (string * FlatNote)
}.

(** [{ ...m, [k]: v }] on an insertion-ordered mapping. *)
Fixpoint upsert {V : Type} (k : string) (v : V) (m : list (string * V))
  : list (string * V) :=
  match m with
  | [] => [(k, v)]
  | (k', v') :: rest =>
      if bool_decide (k = k') then (k, v) :: rest
      else (k', v') :: upsert k v rest
  end.

(** Modelled from the spec: [new FlatNotepad(title, { lastModified,
    notepadAssets })]. *)
Definition newFlatNotepad `{DateFns} (title : string) (lastModified : Date)
    (notepadAssets : list string) : FlatNotepad :=
  {| flat_title := title; flat_lastModified := format lastModified;
     flat_notepadAssets := notepadAssets; flat_sections := [];
     flat_notes := [] |}.

(** Modelled from the spec: [FlatNotepad.addSection(flat)] files the
    descriptor under its identifier. *)
Definition flatAddSection (f : FlatNotepad) (flat : FlatSection) : FlatNotepad :=
  {| flat_title := flat_title f; flat_lastModified := flat_lastModified f;
     flat_notepadAssets := flat_notepadAssets f;
     flat_sections := upsert (fs_internalRef flat) flat (flat_sections f);
     flat_notes := flat_notes f |}.

Definition flatNoteOf (n : NoteObj) (parent : option string) : FlatNote :=
  {| fn_title := note_title n; fn_time := note_time n;
     fn_elements := note_elements n;
     fn_bibliography := note_bibliography n;
     fn_internalRef := note_internalRef n; fn_parent := parent |}.

Definition putFlatNote (f : FlatNotepad) (n : FlatNote) : FlatNotepad :=
  {| flat_title := flat_title f; flat_lastModified := flat_lastModified f;
     flat_notepadAssets := flat_notepadAssets f;
     flat_sections := flat_sections f;
     flat_notes := upsert (fn_internalRef n) n (flat_notes f) |}.

(** Modelled from the spec: [FlatNotepad.addNote(note)] files the Note under
    its identifier with the identifier of its owning Section, which the Note
    reaches through its back-reference. *)
Definition flatAddNote (h : heap) (f : FlatNotepad) (note : loc)
  : option FlatNotepad :=
  n ← getNote h note;
  r ← refBehind h (note_parent n);
  Some (putFlatNote f (flatNoteOf n r)).

(** [Notepad.flatten()] against this FlatNotepad. *)
Definition flattenNotepad `{DateFns} (fuel : nat) (h : heap) (this : loc)
  : option FlatNotepad :=
  flatten FlatNotepad newFlatNotepad flatAddSection flatAddNote fuel h this.

(** *** Trees of values *)

(** The content of a Note. *)
Record NoteT : Type := MkNoteT {
  nt_title : string;
  nt_time : Z;
  nt_elements : list NoteElement;
  nt_bibliography : list Source;
  nt_internalRef : string
}.

(** A Section with everything it owns. *)
Inductive SectionT : Type :=
  MkSectionT (title ref : string) (sections : list SectionT) (notes : list NoteT).

Definition st_ref (t : SectionT) : string :=
  match t with MkSectionT _ r _ _ => r end.
Definition st_sections (t : SectionT) : list SectionT :=
  match t with MkSectionT _ _ ss _ => ss end.
Definition st_notes (t : SectionT) : list NoteT :=
  match t with MkSectionT _ _ _ ns => ns end.

(** A Notepad with everything it owns, apart from the Assets. *)
Record NotepadT : Type := MkNotepadT {
  t_title : string;
  t_notepadAssets : list string;
  t_sections : list SectionT
}.

Definition noteTOf (n : NoteObj) : NoteT :=
  {| nt_title := note_title n; nt_time := note_time n;
     nt_elements := note_elements n;
     nt_bibliography := note_bibliography n;
     nt_internalRef := note_internalRef n |}.

(** The tree below the Section at [l], read from the store. *)
Fixpoint sectionTree (fuel : nat) (h : heap) (l : loc) : option SectionT :=
  match fuel with
  | O => None
  | S fuel' =>
      s ← getSection h l;
      kids ← mapM (sectionTree fuel' h) (sec_sections s);
      ns ← mapM (λ nl, noteTOf <$> getNote h nl) (sec_notes s);
      Some (MkSectionT (sec_title s) (sec_internalRef s) kids ns)
  end.

(** The tree of the Notepad at [l], read from the store. *)
Definition notepadTree (fuel : nat) (h : heap) (l : loc) : option NotepadT :=
  np ← getNotepad h l;
  ss ← mapM (sectionTree fuel h) (np_sections np);
  Some {| t_title := np_title np; t_notepadAssets := np_notepadAssets np;
          t_sections := ss |}.

(** The identifiers of the Sections of a tree, and of its Notes. *)
Fixpoint sectionRefs (t : SectionT) : list string :=
  match t with
  | MkSectionT _ r ss _ => r :: flat_map sectionRefs ss
  end.

Fixpoint noteRefs (t : SectionT) : list string :=
  match t with
  | MkSectionT _ _ ss ns => map nt_internalRef ns ++ flat_map noteRefs ss
  end.

(** The parent/child relationships of a tree: a pair for every Section and
    every Note, with the identifier of the Section that holds it ([None] at
    the top level). *)
Fixpoint childEdges (parent : option string) (t : SectionT)
  : list (option string * string) :=
  match t with
  | MkSectionT _ r ss ns =>
      (parent, r) :: map (λ n, (Some r, nt_internalRef n)) ns
        ++ flat_map (childEdges (Some r)) ss
  end.

(** The back-references below the Section at [l] agree with the tree: the
    parent of a Section is unset or a Notepad at the top level ([holder] is
    [None]) and bears the identifier of the holder below it; the parent of a
    Note bears the identifier of its Section. *)
Fixpoint linked (fuel : nat) (h : heap) (holder : option string) (l : loc) : bool :=
  match fuel with
  | O => false
  | S fuel' =>
      match getSection h l with
      | None => false
      | Some s =>
          bool_decide (refBehind h (sec_parent s) = Some holder)
          && forallb (λ nl, match getNote h nl with
                            | None => false
                            | Some n =>
                                bool_decide (refBehind h (note_parent n)
                                             = Some (Some (sec_internalRef s)))
                            end) (sec_notes s)
          && forallb (linked fuel' h (Some (sec_internalRef s))) (sec_sections s)
      end
  end.

(** The back-references below the sections of the Notepad at [l] agree
    with its tree. *)
Definition backrefsAgree (fuel : nat) (h : heap) (l : loc) : bool :=
  match getNotepad h l with
  | None => false
  | Some np => forallb (linked fuel h None) (np_sections np)
  end.

(** The descriptor of a tree's root under the holder [p], and the flat form
    of a Note of the Section [r]. *)
Definition descOf (p : option string) (t : SectionT) : FlatSection :=
  match t with
  | MkSectionT title r _ _ =>
      {| fs_title := title; fs_internalRef := r; fs_parentRef := p |}
  end.

Definition flatNoteOfT (r : option string) (n : NoteT) : FlatNote :=
  {| fn_title := nt_title n; fn_time := nt_time n;
     fn_elements := nt_elements n; fn_bibliography := nt_bibliography n;
     fn_internalRef := nt_internalRef n; fn_parent := r |}.

(** The descriptors of a tree in the order of a depth-first walk, and its
    Notes in that order. *)
Fixpoint treeSecs (p : option string) (t : SectionT) : list FlatSection :=
  match t with
  | MkSectionT title r ss _ =>
      {| fs_title := title; fs_internalRef := r; fs_parentRef := p |}
        :: flat_map (treeSecs (Some r)) ss
  end.

Fixpoint treeNotes (t : SectionT) : list FlatNote :=
  match t with
  | MkSectionT _ r ss ns =>
      map (flatNoteOfT (Some r)) ns ++ flat_map treeNotes ss
  end.

Fixpoint height (t : SectionT) : nat :=
  match t with
  | MkSectionT _ _ ss _ => S (foldr (λ k m, Nat.max (height k) m) 0%nat ss)
  end.

(** [t] is the tree [u] or a tree below it. *)
Inductive subtree (t : SectionT) : SectionT → Prop :=
  | subtree_here : subtree t t
  | subtree_kid u k : k ∈ st_sections u → subtree t k → subtree t u.

(** The FlatNotepad [f] after the descriptors [ss] and the notes [ns] have
    been filed in it, in that order. *)
Definition filed (f : FlatNotepad) (ss : list FlatSection) (ns : list FlatNote)
  : FlatNotepad :=
  {| flat_title := flat_title f; flat_lastModified := flat_lastModified f;
     flat_notepadAssets := flat_notepadAssets f;
     flat_sections :=
       fold_left (λ m s, upsert (fs_internalRef s) s m) ss (flat_sections f);
     flat_notes :=
       fold_left (λ m n, upsert (fn_internalRef n) n m) ns (flat_notes f) |}.

(** *** Reconstruction *)

Definition noteTOfFlat (n : FlatNote) : NoteT :=
  {| nt_title := fn_title n; nt_time := fn_time n;
     nt_elements := fn_elements n; nt_bibliography := fn_bibliography n;
     nt_internalRef := fn_internalRef n |}.

(** The flat sections whose [parentRef] is [p], in the order of the mapping. *)
Definition sectionsUnder (f : FlatNotepad) (p : option string) : list FlatSection :=
  filter (λ s, fs_parentRef s = p) (map snd (flat_sections f)).

Definition notesUnder (f : FlatNotepad) (p : option string) : list FlatNote :=
  filter (λ n, fn_parent n = p) (map snd (flat_notes f)).

(** Modelled from the spec: the Section of a flat section, with "all others
    attached under the Section whose internalRef equals their parentRef",
    by recursive resolution; [fuel] bounds the depth. *)
Fixpoint buildSection (fuel : nat) (f : FlatNotepad) (flat : FlatSection)
  : option SectionT :=
  match fuel with
  | O => None
  | S fuel' =>
      kids ← mapM (buildSection fuel' f)
                  (sectionsUnder f (Some (fs_internalRef flat)));
      Some (MkSectionT (fs_title flat) (fs_internalRef flat) kids
              (map noteTOfFlat (notesUnder f (Some (fs_internalRef flat)))))
  end.

(** Every [parentRef] names a flat section of the mapping. *)
Definition parentsResolve (f : FlatNotepad) : bool :=
  forallb (λ s, match fs_parentRef s with
                | None => true
                | Some r => bool_decide (r ∈ map fst (flat_sections f))
                end) (map snd (flat_sections f)).

(** Modelled from the spec: [FlatNotepad.toNotepad()], absent from the
    sources: "a flat section with no parentRef becomes a top-level Section of
    the new Notepad"; reconstruction "fails if a parentRef does not resolve
    to any known flat section".  The new Notepad is given as the tree of
    values it owns; no Section is deeper than there are flat sections. *)
Definition toNotepad (f : FlatNotepad) : option NotepadT :=
  if parentsResolve f then
    ss ← mapM (buildSection (length (flat_sections f)) f) (sectionsUnder f None);
    Some {| t_title := flat_title f;
            t_notepadAssets := flat_notepadAssets f; t_sections := ss |}
  else None.

(** *** Examples *)

(** A Notepad built from the leaves up, as the translators do: a Note is
    added to the Section b, then b and c are added to the Section a, and a
    to the Notepad.  The back-reference of b is left on the copy of a that
    was made before c was added. *)
Definition nestedRun : option (heap * loc) :=
  let h0 := [ ONotepad NotepadTree.emptyNotepad;
              OSection (SectionNote.newSection "a" "ref-a");
              OSection (SectionNote.newSection "b" "ref-b");
              ONote (SectionNote.newNote "n" 0
                       [{| el_type := "markdown"; el_content := "#todo";
                           el_args := [] |}] [] "ref-n");
              OSection (SectionNote.newSection "c" "ref-c") ] in
  '(h1, b1) ← SectionNote.addNote h0 2 3;
  '(h2, a1) ← SectionNote.addSection h1 1 b1;
  '(h3, a2) ← SectionNote.addSection h2 a1 4;
  @NotepadTree.addSection NotepadTree.textDates "2018-01-02" h3 0 a2.

Definition nestedStore : heap :=
  Eval vm_compute in default [] (fst <$> nestedRun).

Definition nestedNotepad : loc :=
  Eval vm_compute in default 0%nat (snd <$> nestedRun).

(** A Notepad that holds the Section b twice, at the top level and below
    the Section a: [p.addSection(b)], then [a.addSection(b)], then the
    result added to the Notepad. *)
Definition sharedChildRun : option (heap * loc) :=
  let h0 := [ ONotepad NotepadTree.emptyNotepad;
              OSection (SectionNote.newSection "a" "ref-a");
              OSection (SectionNote.newSection "b" "ref-b") ] in
  '(h1, p1) ← @NotepadTree.addSection NotepadTree.textDates "2018-01-02" h0 0 2;
  '(h2, a1) ← SectionNote.addSection h1 1 2;
  @NotepadTree.addSection NotepadTree.textDates "2018-01-02" h2 p1 a1.

End Flat.

(** ** Searching a Note *)

Module NoteSearch.
Import Store.

(** [toLowerCase()] on the letters A to Z. *)
Definition lowerChar (c : ascii) : ascii :=
  let n := nat_of_ascii c in
  if (65 <=? n)%nat && (n <=? 90)%nat then ascii_of_nat (n + 32) else c.

Fixpoint toLowerCase (s : string) : string :=
  match s with
  | EmptyString => EmptyString
  | String c rest => String (lowerChar c) (toLowerCase rest)
  end.

(** [s.startsWith(q)] and [s.includes(q)] *)
Fixpoint startsWith (s q : string) {struct q} : bool :=
  match q, s with
  | EmptyString, _ => true
  | String a q', String b s' => bool_decide (a = b) && startsWith s' q'
  | String _ _, EmptyString => false
  end.

Fixpoint includes (s q : string) : bool :=
  startsWith s q
  || match s with
     | EmptyString => false
     | String _ rest => includes rest q
     end.

(** A character of a word: a letter, a digit or the underscore. *)
Definition isWordChar (c : ascii) : bool :=
  let n := nat_of_ascii c in
  ((48 <=? n) && (n <=? 57) || (65 <=? n) && (n <=? 90)
   || (97 <=? n) && (n <=? 122) || (n =? 95))%nat.

(** The token read so far, when it is more than the '#' alone. *)
Definition emitToken (cur : option string) : list string :=
  match cur with
  | Some tok => if bool_decide (tok = "#") then [] else [tok]
  | None => []
  end.

(** The tokens of a text that are a '#' followed by a word, in order of
    appearance; [cur] is the token being read. *)
Fixpoint scanHashtags (cur : option string) (s : string) : list string :=
  match s with
  | EmptyString => emitToken cur
  | String c rest =>
      match cur with
      | Some tok =>
          if isWordChar c then scanHashtags (Some (tok +:+ String c EmptyString)) rest
          else emitToken cur
                 ++ scanHashtags (if bool_decide (c = "#"%char) then Some "#" else None) rest
      | None =>
          scanHashtags (if bool_decide (c = "#"%char) then Some "#" else None) rest
      end
  end.

(** Modelled from the spec: [Note.getHashtags()], absent from the sources,
    "scans every element's textual content for tokens matching a #-prefixed
    word pattern and returns them in order of first appearance", duplicates
    retained. *)
Definition getHashtags (n : NoteObj) : list string :=
  flat_map (λ e, scanHashtags None (el_content e)) (note_elements n).

(** Modelled from the spec: [Note.search(query)], absent from the sources
    (its tests are in src/tests/Note.spec.ts): "empty query matches every
    note (returns the note itself); a non-empty query not starting with # is
    a case-insensitive substring match against the title; a query starting
    with # requires an exact token match against the note's extracted
    hashtags".  [this] is the Note object, [n] its fields. *)
Definition search (this : loc) (n : NoteObj) (query : string) : list loc :=
  if bool_decide (query = "") then [this]
  else if startsWithHash query then
    if bool_decide (query ∈ getHashtags n) then [this] else []
  else
    if includes (toLowerCase (note_title n)) (toLowerCase query) then [this]
    else [].

(** [q] occurs in [s] when the case of letters is ignored. *)
Definition occursIgnoringCase (q s : string) : Prop :=
  ∃ pre post : string,
    toLowerCase s = pre +:+ toLowerCase q +:+ post.

(** [q] is a proper prefix of [tag]. *)
Definition properPrefix (q tag : string) : Prop :=
  q ≠ tag ∧ ∃ rest : string, tag = q +:+ rest.

(** The Note of the tests: titled "test", with one markdown element
    "#match". *)
Definition testNote : NoteObj :=
  {| note_title := "test"; note_time := 0;
     note_elements := [{| el_type := "markdown"; el_content := "#match";
                          el_args := [] |}];
     note_bibliography := []; note_internalRef := "ref-test";
     note_parent := None |}.

End NoteSearch.

(** ** More of the search index *)

Module SearchIndexPaths.
Import SearchIndex.

(** The notes pushed at the node at the end of a path: what [add] stored
    under exactly these characters; nothing when the path breaks off. *)
Definition exactAt (keyChars : list ascii) (node : TrieNode) : list string :=
  match descend keyChars node with
  | Some m => notes m
  | None => []
  end.

(** Every child at and below the node carries in [key] the name of the
    property it is stored under: [children[ch] = new TrieNode(ch)]. *)
Fixpoint keyed (n : TrieNode) : Prop :=
  match n with
  | MkTrieNode _ _ cs =>
      fold_right (λ kv P, (key (snd kv) = fst kv ∧ keyed (snd kv)) ∧ P) True cs
  end.

(** The references a history added under exactly the key [k]. *)
Definition addedUnder (k : string) (ops : list (string * string)) : list string :=
  map snd (filter (λ kr, fst kr = k) ops).

End SearchIndexPaths.

(** ** Sequences of structural edits of a Notepad *)

Module NotepadEdits.
Import Store NotepadTree.

(** The two structural edits of a Notepad. *)
Definition structural `{DateFns} (op : NotepadOp) : Prop :=
  match op with
  | OpAddSection _ | OpAddAsset _ => True
  | _ => False
  end.

(** The sections an operation adds through [addSection]. *)
Definition sectionsAdded `{DateFns} (op : NotepadOp) : list loc :=
  match op with
  | OpAddSection s => [s]
  | _ => []
  end.


(** The field [parent] of the Section at [l]. *)
Definition parentOf (h : heap) (l : loc) : option (option loc) :=
  sec_parent <$> getSection h l.

(** A store with a Notepad and two Sections. *)
Definition twoSectionStore : heap :=
  [ ONotepad emptyNotepad;
    OSection (SectionNote.newSection "first" "ref-1");
    OSection (SectionNote.newSection "second" "ref-2") ].

(** The Notepad [np] under another title. *)
Definition withTitle (np : NotepadObj) (title : string) : NotepadObj :=
  {| np_title := title; np_lastModified := np_lastModified np;
     np_sections := np_sections np; np_notepadAssets := np_notepadAssets np;
     np_assets := np_assets np |}.

(** [addSection(first)], [addAsset(asset)], [addSection(second)]. *)
Definition sampleEdits : list (@NotepadOp textDates) :=
  [ @OpAddSection textDates 1%nat; @OpAddAsset textDates sampleAsset;
    @OpAddSection textDates 2%nat ].

End NotepadEdits.

(** ** The order of the walk of [flatten] *)

Module FlatWalk.
Import Store Flat.

(** What a call recorded by the log carries: the title and identifier of a
    descriptor, or the content of the Note handed to [addNote]. *)
Definition eventOf (h : heap) (e : Emitted) : option (string * string + NoteT) :=
  match e with
  | EmitSection flat => Some (inl (fs_title flat, fs_internalRef flat))
  | EmitNote l => (λ n, inr (noteTOf n)) <$> getNote h l
  end.

(** A tree walked depth-first: a Section, then its Notes, then the trees of
    its child Sections. *)
Fixpoint walk (t : SectionT) : list (string * string + NoteT) :=
  match t with
  | MkSectionT title r ss ns =>
      inl (title, r) :: map inr ns ++ flat_map walk ss
  end.

End FlatWalk.

(** ** Translators.Json.toMarkdownFromJupyter *)

Module Jupyter.

(** The parsed notebook, as far as the function reads it: [cell_type], the
    array [source], and for a code cell the array [outputs], of which each
    output may have an array [text]. *)
Record Output : Type := MkOutput { out_text : option (list string) }.

Record Cell : Type := MkCell {
  cell_type : string;
  source : list string;
  outputs : list Output
}.

Definition newline : string := String "010"%char EmptyString.

Definition rule : string :=
  newline +:+ "--------------------" +:+ newline.

Definition fence : string := "```" +:+ newline.

(** [lines.forEach(line => mdString += line + '\n')] *)
Definition addLines (mdString : string) (lines : list string) : string :=
  fold_left (λ acc line, acc +:+ (line +:+ newline)) lines mdString.

(** The body of [cell.outputs.forEach]; [if (!output.text) return]. *)
Definition addOutput (mdString : string) (output : Output) : string :=
  match out_text output with
  | None => mdString
  | Some text =>
      fold_left (λ acc t, acc +:+ t) text ((mdString +:+ rule) +:+ ("Output:" +:+ newline))
        +:+ rule
  end.

(** The body of [np.cells.forEach]. *)
Definition addCell (mdString : string) (cell : Cell) : string :=
  let mdString :=
    if bool_decide (cell_type cell = "markdown")
    then addLines mdString (source cell) else mdString in
  if bool_decide (cell_type cell = "code") then
    fold_left addOutput (outputs cell)
      (addLines (mdString +:+ (newline +:+ fence)) (source cell))
      +:+ fence
  else mdString.

(** [toMarkdownFromJupyter], from the parsed cells on. *)
Definition toMarkdownFromJupyter (cells : list Cell) : string :=
  fold_left addCell cells "".

(** The text of one cell, written without an accumulator. *)
Definition joinAll (parts : list string) : string :=
  fold_right String.append "" parts.

Definition linesText (lines : list string) : string :=
  joinAll (map (λ line, line +:+ newline) lines).

Definition outputText (output : Output) : string :=
  match out_text output with
  | None => ""
  | Some text => rule +:+ ("Output:" +:+ newline) +:+ joinAll text +:+ rule
  end.

Definition cellText (cell : Cell) : string :=
  if bool_decide (cell_type cell = "markdown") then linesText (source cell)
  else if bool_decide (cell_type cell = "code") then
    (newline +:+ fence) +:+ linesText (source cell)
      +:+ joinAll (map outputText (outputs cell)) +:+ fence
  else "".

(** A cell that the function reads, and an output that it prints. *)
Definition readCell (cell : Cell) : Prop :=
  cell_type cell = "markdown" ∨ cell_type cell = "code".

Definition printedOutput (output : Output) : Prop := out_text output ≠ None.

Definition dropUnprinted (cell : Cell) : Cell :=
  {| cell_type := cell_type cell; source := source cell;
     outputs := filter printedOutput (outputs cell) |}.

Definition sampleNotebook : list Cell :=
  [ {| cell_type := "markdown"; source := ["# Title"; "text"]; outputs := [] |};
    {| cell_type := "raw"; source := ["ignored"]; outputs := [] |};
    {| cell_type := "code"; source := ["print(1)"];
       outputs := [ {| out_text := None |}; {| out_text := Some ["1"] |} ] |} ].

End Jupyter.

(** ** The elements of a note in Translators.Xml.toNotepadFromNpx *)

Module NpxElements.













End NpxElements.

(** * Properties of the search index *)

Section Dedup.

Lemma elem_of_dedup_from (seen xs : list string) (x : string) :
  x ∈ dedup_from seen xs ↔ x ∈ xs ∧ x ∉ seen.
Proof.
  revert seen. induction xs as [|y ys IH]; intros seen; simpl.
  - set_solver.
  - case_bool_decide as Hy.
    + rewrite IH, elem_of_cons. split; [tauto |].
      intros [[-> | ?] ?]; [contradiction | tauto].
    + rewrite elem_of_cons, IH, !elem_of_cons. split.
      * intros [-> | [? ?]]; tauto.
      * destruct (decide (x = y)) as [-> | ?]; tauto.
Qed.

Lemma NoDup_dedup_from (seen xs : list string) : NoDup (dedup_from seen xs).
Proof.
  revert seen. induction xs as [|y ys IH]; intros seen; simpl.
  - constructor.
  - case_bool_decide; [apply IH |].
    constructor; [| apply IH].
    rewrite elem_of_dedup_from, elem_of_cons. tauto.
Qed.

Lemma elem_of_dedup (xs : list string) (x : string) : x ∈ dedup xs ↔ x ∈ xs.
Proof.
  unfold dedup. rewrite elem_of_dedup_from. split; [tauto |].
  intros ?. split; [done | apply not_elem_of_nil].
Qed.

Lemma NoDup_dedup (xs : list string) : NoDup (dedup xs).
Proof. apply NoDup_dedup_from. Qed.

(** In a duplicate-free list a member occurs exactly once. *)
Lemma NoDup_occurs (l : list string) (r : string) :
  NoDup l →
  length (filter (λ x, x = r) l) = if bool_decide (r ∈ l) then 1%nat else 0%nat.
Proof.
  induction 1 as [|y l Hy Hnd IH].
  - reflexivity.
  - rewrite filter_cons. destruct (decide (y = r)) as [-> | Hne].
    + simpl. rewrite IH. rewrite (bool_decide_eq_false_2 _ Hy).
      rewrite bool_decide_eq_true_2; [done | by left].
    + rewrite IH. apply (f_equal (λ b : bool, if b then 1%nat else 0%nat)).
      apply bool_decide_ext. set_solver.
Qed.

Lemma NoDup_occurs_once (l : list string) (r : string) :
  NoDup l → r ∈ l → length (filter (λ x, x = r) l) = 1%nat.
Proof.
  intros Hnd Hin. rewrite NoDup_occurs by done.
  by rewrite bool_decide_eq_true_2.
Qed.

End Dedup.

Module SearchIndexFacts.
Import SearchIndex.

(** Induction over a TrieNode with the hypothesis for every child. *)
Lemma TrieNode_children_ind (P : TrieNode → Prop) :
  (∀ k ns cs, Forall (λ kv, P (snd kv)) cs → P (MkTrieNode k ns cs)) →
  ∀ n, P n.
Proof.
  intros Hstep. fix IH 1. intros [k ns cs]. apply Hstep.
  induction cs as [|[d c] cs IHcs]; constructor; [apply IH | exact IHcs].
Qed.

Lemma fold_concat_acc (cs : list (ascii * TrieNode)) (acc : list string) :
  fold_left (λ a kv, a ++ getAllFrom (snd kv)) cs acc
  = acc ++ (cs ≫= λ kv, getAllFrom (snd kv)).
Proof.
  revert acc. induction cs as [|kv cs IH]; intros acc; simpl.
  - by rewrite app_nil_r.
  - rewrite IH. by rewrite <- app_assoc.
Qed.

Lemma getAllFrom_eq (n : TrieNode) :
  getAllFrom n = notes n ++ (children n ≫= λ kv, getAllFrom (snd kv)).
Proof. destruct n as [k ns cs]. simpl. by rewrite fold_concat_acc. Qed.

Lemma elem_of_getAllFrom (n : TrieNode) (x : string) :
  x ∈ getAllFrom n ↔
  x ∈ notes n ∨ ∃ kv, kv ∈ children n ∧ x ∈ getAllFrom (snd kv).
Proof.
  rewrite getAllFrom_eq, elem_of_app, list_elem_of_bind.
  split; (intros [? | (kv & ? & ?)]; [by left | right; eauto]).
Qed.

(** [getAllFrom] gathers exactly the notes stored at the node and below. *)
Lemma getAllFrom_within (n : TrieNode) (x : string) :
  x ∈ getAllFrom n ↔ ∃ m, within m n ∧ x ∈ notes m.
Proof.
  induction n as [k ns cs IH] using TrieNode_children_ind.
  rewrite elem_of_getAllFrom. simpl. split.
  - intros [Hx | ([d c] & Hin & Hx)].
    + exists (MkTrieNode k ns cs). split; [constructor | done].
    + rewrite Forall_forall in IH. apply (IH _ Hin) in Hx as (m & Hm & Hx).
      exists m. split; [| done]. by eapply within_child.
  - intros (m & Hm & Hx). inversion Hm as [| n' ch c Hin Hw]; subst.
    + by left.
    + right. exists (ch, c). split; [done |].
      rewrite Forall_forall in IH. apply (IH _ Hin). eauto.
Qed.

Lemma descend_app (a b : list ascii) (n : TrieNode) :
  descend (a ++ b) n = descend a n ≫= descend b.
Proof.
  revert n. induction a as [|ch a IH]; intros n; simpl; [done |].
  destruct (getChild ch (children n)); [apply IH | done].
Qed.

(** *** Insertion into the trie of titles *)

Lemma elem_of_setChild (ch : ascii) (m : TrieNode) cs (kv : ascii * TrieNode) :
  kv ∈ setChild ch m cs → kv = (ch, m) ∨ kv ∈ cs.
Proof.
  induction cs as [|[d c] cs IH]; simpl.
  - intros ?%list_elem_of_singleton. by left.
  - case_bool_decide as Hd.
    + rewrite !elem_of_cons. intros [-> | ?]; [by left | right; by right].
    + destruct (isIndexKey ch && _).
      * rewrite elem_of_cons. intros [-> | ?]; [by left | by right].
      * rewrite !elem_of_cons. intros [-> | Hin]; [right; by left |].
        destruct (IH Hin) as [-> | ?]; [by left | right; by right].
Qed.

Lemma setChild_new_elem (ch : ascii) (m : TrieNode) cs : (ch, m) ∈ setChild ch m cs.
Proof.
  induction cs as [|[d c] cs IH]; simpl.
  - by apply list_elem_of_singleton.
  - case_bool_decide; [by left |].
    destruct (isIndexKey ch && _); [by left | by right].
Qed.

(** Every property survives an assignment, except the one it overwrites:
    the first property named [ch]. *)
Lemma setChild_keeps (ch : ascii) (m : TrieNode) cs (kv : ascii * TrieNode) :
  kv ∈ cs → kv ∈ setChild ch m cs ∨ getChild ch cs = Some (snd kv).
Proof.
  induction cs as [|[d c] cs IH]; simpl.
  - by intros ?%elem_of_nil.
  - intros Hin. case_bool_decide as Hd.
    + apply elem_of_cons in Hin as [-> | Hin]; [by right | left; by right].
    + destruct (isIndexKey ch && _); [left; by right |].
      apply elem_of_cons in Hin as [-> | Hin]; [left; by left |].
      destruct (IH Hin) as [? | ?]; [left; by right | by right].
Qed.

Lemma getChild_elem (ch : ascii) cs (c : TrieNode) :
  getChild ch cs = Some c → (ch, c) ∈ cs.
Proof.
  induction cs as [|[d c'] cs IH]; simpl; [done |].
  case_bool_decide as Hd; [| intros ?; right; by apply IH].
  intros [= ->]. subst. by left.
Qed.

Lemma elem_of_getAllFrom_insertAt (keyChars : list ascii) (ref : string)
    (n : TrieNode) (x : string) :
  x ∈ getAllFrom (insertAt keyChars ref n) ↔ x = ref ∨ x ∈ getAllFrom n.
Proof.
  revert n. induction keyChars as [|ch rest IH]; intros n.
  - simpl insertAt. rewrite !elem_of_getAllFrom. simpl.
    rewrite elem_of_app, list_elem_of_singleton. tauto.
  - simpl insertAt.
    set (child := match getChild ch (children n) with
                  | Some c => c | None => newTrieNode ch end).
    rewrite (elem_of_getAllFrom (MkTrieNode _ _ _)),
            (elem_of_getAllFrom n). simpl. split.
    + intros [? | (kv & Hin & Hx)]; [tauto |].
      apply elem_of_setChild in Hin as [-> | Hin].
      * simpl in Hx. apply IH in Hx as [? | Hx]; [by left |].
        right. subst child. destruct (getChild ch (children n)) as [c|] eqn:Hc.
        -- right. exists (ch, c). split; [by apply getChild_elem | done].
        -- rewrite elem_of_getAllFrom in Hx. simpl in Hx.
           destruct Hx as [?%elem_of_nil | (? & ?%elem_of_nil & _)]; done.
      * right. right. eauto.
    + intros [-> | [? | (kv & Hin & Hx)]].
      * right. exists (ch, insertAt rest ref child).
        split; [apply setChild_new_elem |]. simpl. apply IH. by left.
      * by left.
      * right. destruct (setChild_keeps ch (insertAt rest ref child) _ _ Hin)
          as [Hk | Hg].
        -- eauto.
        -- exists (ch, insertAt rest ref child).
           split; [apply setChild_new_elem |]. simpl. apply IH. right.
           subst child. by rewrite Hg.
Qed.

Lemma getChild_setChild_eq (ch : ascii) (m : TrieNode) cs :
  getChild ch (setChild ch m cs) = Some m.
Proof.
  induction cs as [|[d c] cs IH]; simpl.
  - by rewrite bool_decide_eq_true_2.
  - case_bool_decide as Hd; simpl.
    + by rewrite bool_decide_eq_true_2.
    + destruct (isIndexKey ch && _); simpl.
      * by rewrite bool_decide_eq_true_2.
      * by rewrite bool_decide_eq_false_2.
Qed.

Lemma getChild_setChild_ne (ch q : ascii) (m : TrieNode) cs :
  q ≠ ch → getChild q (setChild ch m cs) = getChild q cs.
Proof.
  intros Hne. induction cs as [|[d c] cs IH]; simpl.
  - by rewrite bool_decide_eq_false_2.
  - case_bool_decide as Hd; simpl.
    + subst d. by rewrite !bool_decide_eq_false_2.
    + destruct (isIndexKey ch && _); simpl.
      * by rewrite (bool_decide_eq_false_2 (q = ch)).
      * by rewrite IH.
Qed.

Lemma found_newTrieNode (qs : list ascii) (ch : ascii) (x : string) :
  x ∉ found qs (newTrieNode ch).
Proof.
  unfold found. destruct qs as [|q qs]; simpl; apply not_elem_of_nil.
Qed.

(** After an insertion under [keyChars], a query finds what it found before
    and, when it is a prefix of [keyChars], the inserted reference. *)
Lemma found_insertAt (keyChars : list ascii) (ref : string) :
  ∀ (qs : list ascii) (n : TrieNode) (x : string),
    x ∈ found qs (insertAt keyChars ref n) ↔
    (x = ref ∧ qs `prefix_of` keyChars) ∨ x ∈ found qs n.
Proof.
  induction keyChars as [|ch rest IH]; intros qs n x.
  - destruct qs as [|q qs].
    + unfold found. simpl descend. cbv iota.
      rewrite (elem_of_getAllFrom_insertAt [] ref n). split.
      * intros [-> | ?]; [left; by split | by right].
      * intros [[-> _] | ?]; [by left | by right].
    + unfold found. simpl. split; [by right |].
      intros [[_ Hpre] | ?]; [| done]. by apply prefix_nil_inv in Hpre.
  - destruct qs as [|q qs].
    + unfold found. simpl descend. cbv iota.
      rewrite (elem_of_getAllFrom_insertAt (ch :: rest) ref n). split.
      * intros [-> | ?]; [left; split; [done | apply prefix_nil] | by right].
      * intros [[-> _] | ?]; [by left | by right].
    + unfold found. simpl insertAt. simpl descend.
      destruct (decide (q = ch)) as [-> | Hne].
      * rewrite getChild_setChild_eq. fold (found qs (insertAt rest ref
          match getChild ch (children n) with
          | Some c => c | None => newTrieNode ch end)).
        rewrite IH.
        assert (Hpre : qs `prefix_of` rest ↔ ch :: qs `prefix_of` ch :: rest).
        { split; [apply prefix_cons | apply prefix_cons_inv_2]. }
        rewrite Hpre.
        destruct (getChild ch (children n)) as [c|]; [done |].
        split; [| intros [? | ?%elem_of_nil]; [by left | done]].
        intros [? | Hx]; [by left |]. by apply found_newTrieNode in Hx.
      * rewrite getChild_setChild_ne by done. split; [by right |].
        intros [[_ Hpre] | ?]; [| done].
        apply prefix_cons_inv_1 in Hpre. done.
Qed.

(** *** The order of the properties *)

Lemma wellKeyed_unfold k ns cs :
  wellKeyed (MkTrieNode k ns cs) ↔
  StronglySorted jsBefore (map fst cs) ∧ Forall (λ kv, wellKeyed (snd kv)) cs.
Proof.
  simpl. apply and_iff_compat_l.
  induction cs as [|kv cs IH]; simpl.
  - split; [constructor | done].
  - rewrite Forall_cons, IH. done.
Qed.

Lemma getChild_None (ch : ascii) cs : ch ∉ map fst cs → getChild ch cs = None.
Proof.
  induction cs as [|[d c] cs IH]; simpl; [done |].
  intros [Hne Hch]%not_elem_of_cons.
  rewrite bool_decide_eq_false_2 by done. by apply IH.
Qed.

Lemma jsBefore_irrefl (d : ascii) : ¬ jsBefore d d.
Proof. unfold jsBefore. destruct (isIndexKey d); [lia | by intros Hd] . Qed.

(** When [ch] goes before the first key [d], it is not among the keys. *)
Lemma setChild_front_fresh (ch d : ascii) (ks : list ascii) :
  isIndexKey ch && (negb (isIndexKey d) || (nat_of_ascii ch <? nat_of_ascii d)%nat)
    = true →
  ch ≠ d → Forall (jsBefore d) ks →
  jsBefore ch d ∧ Forall (jsBefore ch) ks.
Proof.
  intros [Hch Hd]%andb_true_iff Hne Hall.
  assert (Hfirst : jsBefore ch d).
  { unfold jsBefore. rewrite Hch. destruct (isIndexKey d); [| done].
    simpl in Hd. by apply Nat.ltb_lt. }
  split; [done |].
  eapply Forall_impl; [exact Hall |]. intros e He.
  unfold jsBefore in *. rewrite Hch in *.
  destruct (isIndexKey d), (isIndexKey e); try done. lia.
Qed.

Lemma setChild_back (ch d : ascii) :
  isIndexKey ch && (negb (isIndexKey d) || (nat_of_ascii ch <? nat_of_ascii d)%nat)
    = false →
  ch ≠ d → jsBefore d ch.
Proof.
  intros Hcond Hne. unfold jsBefore.
  destruct (isIndexKey ch) eqn:Hch; simpl in Hcond.
  - apply orb_false_iff in Hcond as [Hd Hlt]. apply negb_false_iff in Hd.
    rewrite Hd. apply Nat.ltb_ge in Hlt.
    assert (nat_of_ascii ch ≠ nat_of_ascii d).
    { intros Heq. apply Hne.
      by rewrite <- (ascii_nat_embedding ch), <- (ascii_nat_embedding d), Heq. }
    lia.
  - destruct (isIndexKey d); [done | congruence].
Qed.

Lemma setChild_keys (ch : ascii) (m : TrieNode) cs (e : ascii) :
  e ∈ map fst (setChild ch m cs) → e = ch ∨ e ∈ map fst cs.
Proof.
  intros ([e' c] & -> & Hin)%list_elem_of_fmap.
  apply elem_of_setChild in Hin as [[= -> ->] | Hin]; [by left | right].
  simpl. by apply (list_elem_of_fmap_2 fst) in Hin.
Qed.

Lemma setChild_sorted (ch : ascii) (m : TrieNode) cs :
  StronglySorted jsBefore (map fst cs) →
  StronglySorted jsBefore (map fst (setChild ch m cs)).
Proof.
  induction cs as [|[d c] cs IH]; simpl; intros Hs.
  - repeat constructor.
  - apply StronglySorted_inv in Hs as [Hs Hd].
    case_bool_decide as Heq; [subst d; by constructor |].
    destruct (isIndexKey ch && _) eqn:Hcond; simpl.
    + destruct (setChild_front_fresh _ _ _ Hcond Heq Hd) as [Hfirst Hrest].
      constructor; [by constructor | by constructor].
    + constructor; [by apply IH |].
      apply Forall_forall. intros e [-> | He]%list_elem_of_In%list_elem_of_In%setChild_keys.
      * by apply setChild_back.
      * rewrite Forall_forall in Hd. by apply Hd.
Qed.

Lemma getAllFrom_newTrieNode ch : getAllFrom (newTrieNode ch) = [].
Proof. reflexivity. Qed.

(** In an ordered [children] object an assignment replaces the property
    named [ch], or adds one: the notes gathered below change by those of the
    child only. *)
Lemma setChild_length (ch : ascii) (m : TrieNode) cs :
  StronglySorted jsBefore (map fst cs) →
  (length (setChild ch m cs ≫= λ kv, getAllFrom (snd kv))
   + length (getAllFrom (default (newTrieNode ch) (getChild ch cs)))
   = length (cs ≫= λ kv, getAllFrom (snd kv)) + length (getAllFrom m))%nat.
Proof.
  induction cs as [|[d c] cs IH]; intros Hs.
  - simpl. rewrite app_nil_r. lia.
  - simpl in Hs. apply StronglySorted_inv in Hs as [Hs Hd].
    cbn [setChild getChild]. case_bool_decide as Heq.
    + subst d. rewrite !bind_cons, !length_app. simpl. lia.
    + destruct (isIndexKey ch && _) eqn:Hcond.
      * destruct (setChild_front_fresh _ _ _ Hcond Heq Hd) as [_ Hrest].
        rewrite getChild_None.
        2:{ intros Hin. rewrite Forall_forall in Hrest.
            by apply (jsBefore_irrefl ch), Hrest. }
        rewrite !bind_cons, !length_app. simpl. lia.
      * specialize (IH Hs). rewrite !bind_cons, !length_app. simpl in *. lia.
Qed.

Lemma insertAt_wellKeyed (keyChars : list ascii) (ref : string) :
  ∀ n, wellKeyed n →
    wellKeyed (insertAt keyChars ref n) ∧
    length (getAllFrom (insertAt keyChars ref n)) = S (length (getAllFrom n)).
Proof.
  induction keyChars as [|ch rest IH]; intros [k ns cs] Hn.
  - split; [exact Hn |]. simpl insertAt.
    rewrite !getAllFrom_eq. simpl. rewrite !length_app. simpl. lia.
  - apply wellKeyed_unfold in Hn as [Hs Hall]. simpl insertAt.
    set (child := match getChild ch cs with
                  | Some c => c | None => newTrieNode ch end).
    assert (Hchild : wellKeyed child).
    { subst child. destruct (getChild ch cs) as [c|] eqn:Hc.
      - rewrite Forall_forall in Hall.
        by apply (Hall (ch, c)), getChild_elem.
      - simpl. split; constructor. }
    destruct (IH child Hchild) as [Hwk Hlen]. split.
    + apply wellKeyed_unfold. split; [by apply setChild_sorted |].
      apply Forall_forall. intros kv [-> | Hin]%elem_of_setChild; [done |].
      rewrite Forall_forall in Hall. by apply Hall.
    + rewrite (getAllFrom_eq (MkTrieNode _ _ (setChild _ _ _))),
              (getAllFrom_eq (MkTrieNode k ns cs)). simpl.
      rewrite !length_app.
      pose proof (setChild_length ch (insertAt rest ref child) cs Hs) as Hset.
      replace (default (newTrieNode ch) (getChild ch cs)) with child in Hset
        by (subst child; by destruct (getChild ch cs)).
      lia.
Qed.

(** *** Invariants of a history of [add] calls *)

Lemma add_hashtag_root t k ref : startsWithHash k = true → root (add t k ref) = root t.
Proof. intros Hk. unfold add. rewrite Hk. by case_bool_decide. Qed.

Lemma add_hashtag_size t k ref : startsWithHash k = true → size (add t k ref) = size t.
Proof. intros Hk. unfold add. rewrite Hk. by case_bool_decide. Qed.

Lemma add_title_size t k ref :
  startsWithHash k = false → size (add t k ref) = (size t + 1)%Z.
Proof. intros Hk. unfold add. by rewrite Hk. Qed.

Lemma add_lastModified t k ref : lastModified (add t k ref) = lastModified t.
Proof. unfold add. destruct (startsWithHash k); [by case_bool_decide | done]. Qed.

Lemma addAll_cons t k r ops : addAll t ((k, r) :: ops) = addAll (add t k r) ops.
Proof. reflexivity. Qed.

Lemma addAll_lastModified ops t : lastModified (addAll t ops) = lastModified t.
Proof.
  revert t. induction ops as [|[k r] ops IH]; intros t; [done |].
  by rewrite addAll_cons, IH, add_lastModified.
Qed.

Lemma addAll_size ops t :
  size (addAll t ops) = (size t + Z.of_nat (length (titleOps ops)))%Z.
Proof.
  revert t. induction ops as [|[k r] ops IH]; intros t.
  - simpl. lia.
  - rewrite addAll_cons, IH. unfold titleOps. rewrite filter_cons. simpl.
    destruct (startsWithHash k) eqn:Hk.
    + rewrite add_hashtag_size by done. by rewrite decide_False by done.
    + rewrite add_title_size by done. rewrite decide_True by done.
      simpl length. lia.
Qed.

Lemma addAll_found ops t (qs : list ascii) (x : string) :
  x ∈ found qs (root (addAll t ops)) ↔
  x ∈ found qs (root t) ∨
  ∃ k, (k, x) ∈ titleOps ops ∧ qs `prefix_of` list_ascii_of_string k.
Proof.
  revert t. induction ops as [|[k r] ops IH]; intros t.
  - simpl. split; [by left |].
    intros [? | (k & Hk & _)]; [done |]. by apply elem_of_nil in Hk.
  - rewrite addAll_cons, IH. unfold titleOps. rewrite filter_cons. simpl.
    destruct (startsWithHash k) eqn:Hk.
    + rewrite add_hashtag_root by done. by rewrite decide_False by done.
    + rewrite decide_True by done. unfold add. rewrite Hk. simpl.
      rewrite found_insertAt. split.
      * intros [[[-> Hpre] | ?] | (k' & Hk' & Hpre)].
        -- right. exists k. split; [by left | done].
        -- by left.
        -- right. exists k'. split; [by right | done].
      * intros [? | (k' & [[= -> ->] | ?]%elem_of_cons & Hpre)].
        -- left. by right.
        -- left. left. by split.
        -- right. eauto.
Qed.

Lemma add_bucketsNoDup t k ref : bucketsNoDup t → bucketsNoDup (add t k ref).
Proof.
  intros Ht. unfold add. destruct (startsWithHash k); [| exact Ht].
  case_bool_decide as Hin; [exact Ht |].
  intros k'. simpl. destruct (decide (k = k')) as [<- | Hne].
  - rewrite lookup_insert_eq. simpl. apply NoDup_app. split; [apply Ht |].
    split; [| apply NoDup_singleton].
    intros x Hx ->%list_elem_of_singleton. done.
  - rewrite lookup_insert_ne by done. apply Ht.
Qed.

Lemma built_bucketsNoDup lm ops : bucketsNoDup (built lm ops).
Proof.
  unfold built. assert (Hnew : bucketsNoDup (newTrie lm)).
  { intros k. simpl. rewrite lookup_empty. constructor. }
  revert Hnew. generalize (newTrie lm).
  induction ops as [|[k r] ops IH]; intros t Ht; [done |].
  rewrite addAll_cons. apply IH. by apply add_bucketsNoDup.
Qed.

Lemma addAll_entries ops t :
  wellKeyed (root t) →
  wellKeyed (root (addAll t ops)) ∧
  length (getAllFrom (root (addAll t ops)))
  = (length (getAllFrom (root t)) + length (titleOps ops))%nat.
Proof.
  revert t. induction ops as [|[k r] ops IH]; intros t Ht.
  - simpl. split; [done | lia].
  - rewrite addAll_cons. unfold titleOps. rewrite filter_cons. simpl.
    destruct (startsWithHash k) eqn:Hk.
    + rewrite decide_False by done.
      pose proof (IH (add t k r)) as IH'.
      rewrite add_hashtag_root in IH' by done. by apply IH'.
    + rewrite decide_True by done.
      assert (Hroot : root (add t k r)
                      = insertAt (list_ascii_of_string k) r (root t)).
      { unfold add. by rewrite Hk. }
      destruct (insertAt_wellKeyed (list_ascii_of_string k) r _ Ht) as [Hwk Hlen].
      destruct (IH (add t k r)) as [Hwk' Hlen']; [by rewrite Hroot |].
      split; [done |]. rewrite Hlen', Hroot, Hlen. simpl. unfold titleOps. lia.
Qed.

(** The size counter of an index is the number of entries it holds. *)
Lemma built_entries lm ops :
  size (built lm ops) = Z.of_nat (length (getAllFrom (root (built lm ops)))).
Proof.
  unfold built. rewrite addAll_size.
  destruct (addAll_entries ops (newTrie lm)) as [_ ->].
  - simpl. split; constructor.
  - unfold size. simpl. lia.
Qed.

Lemma elem_of_titleOps ops (k r : string) :
  (k, r) ∈ titleOps ops ↔ (k, r) ∈ ops ∧ startsWithHash k = false.
Proof. unfold titleOps. rewrite list_elem_of_filter. simpl. tauto. Qed.

Lemma built_size lm ops : size (built lm ops) = Z.of_nat (length (titleOps ops)).
Proof. unfold built. by rewrite addAll_size. Qed.

Lemma shouldReindex_true_iff t lm n :
  shouldReindex t lm n = true ↔ strictlyAfter (lastModified t) lm ∨ n ≠ size t.
Proof.
  unfold shouldReindex, strictlyAfter, timeGt.
  rewrite orb_true_iff, negb_true_iff, Z.eqb_neq.
  apply or_iff_compat_r. split.
  - destruct (lastModified t) as [x|], lm as [y|]; try discriminate.
    intros ?%Z.ltb_lt. eauto.
  - intros (x & y & -> & -> & ?). by apply Z.ltb_lt.
Qed.

(** *** Search *)

Lemma search_title_found t query :
  startsWithHash query = false →
  search t query = dedup (found (list_ascii_of_string query) (root t)).
Proof.
  intros Hq. unfold search, found. rewrite Hq.
  by destruct (descend _ _).
Qed.

(** C6: for a query that does not start with '#', [search] walks the trie one
    character at a time and returns the empty list as soon as a character has
    no child; when the whole query is consumed the result is duplicate-free
    and holds exactly the references stored at the node reached and at the
    nodes below it.  On an index made by [add] calls the result is
    duplicate-free and holds exactly the references added under the title
    keys of which the query is a prefix; for the empty query these are all
    the references added under keys that are not hashtags. *)
Theorem Trie_search_prefix (t : Trie) (query : string) :
  startsWithHash query = false →
  (∀ pre ch post node,
      list_ascii_of_string query = pre ++ ch :: post →
      descend pre (root t) = Some node →
      getChild ch (children node) = None →
      search t query = []) ∧
  (∀ node,
      descend (list_ascii_of_string query) (root t) = Some node →
      NoDup (search t query) ∧
      ∀ r, r ∈ search t query ↔ ∃ m, within m node ∧ r ∈ notes m) ∧
  (∀ lm ops,
      t = built lm ops →
      NoDup (search t query) ∧
      ∀ r, r ∈ search t query ↔
           ∃ k, (k, r) ∈ ops ∧ startsWithHash k = false ∧
                list_ascii_of_string query `prefix_of` list_ascii_of_string k) ∧
  (∀ lm ops,
      t = built lm ops →
      NoDup (search t "") ∧
      ∀ r, r ∈ search t "" ↔ ∃ k, (k, r) ∈ ops ∧ startsWithHash k = false).
Proof.
  intros Hq. split; [| split; [| split]].
  - intros pre ch post node Hsplit Hpre Hch. unfold search.
    rewrite Hq, Hsplit, descend_app, Hpre. simpl. by rewrite Hch.
  - intros node Hnode. unfold search. rewrite Hq, Hnode.
    split; [apply NoDup_dedup |].
    intros r. by rewrite elem_of_dedup, getAllFrom_within.
  - intros lm ops ->. rewrite search_title_found by done.
    split; [apply NoDup_dedup |].
    intros r. rewrite elem_of_dedup. unfold built.
    rewrite addAll_found. split.
    + intros [Hnew | (k & Hk & Hpre)].
      * by apply found_newTrieNode in Hnew.
      * apply elem_of_titleOps in Hk as [? ?]. eauto.
    + intros (k & Hk & Hh & Hpre). right. exists k.
      split; [by apply elem_of_titleOps | done].
  - intros lm ops ->. rewrite (search_title_found _ "") by done.
    split; [apply NoDup_dedup |].
    intros r. rewrite elem_of_dedup. unfold built.
    rewrite addAll_found. split.
    + intros [Hnew | (k & Hk & _)].
      * by apply found_newTrieNode in Hnew.
      * apply elem_of_titleOps in Hk as [? ?]. eauto.
    + intros (k & Hk & Hh). right. exists k.
      split; [by apply elem_of_titleOps | apply prefix_nil].
Qed.

(** The index of the documentation: "cat" and "car" share the prefix "ca". *)
Example search_ca : search sampleTrie "ca" = ["ref1"; "ref2"].
Proof. reflexivity. Qed.

Example search_cat : search sampleTrie "cat" = ["ref1"].
Proof. reflexivity. Qed.

Lemma Trie_search_prefix_witness :
  startsWithHash "ca" = false ∧
  search sampleTrie "cab" = [] ∧
  NoDup (search sampleTrie "ca") ∧
  (∀ r, r ∈ search sampleTrie "ca" ↔
        ∃ k, (k, r) ∈ [("cat", "ref1"); ("car", "ref2"); ("#todo", "refA")]
             ∧ startsWithHash k = false
             ∧ list_ascii_of_string "ca" `prefix_of` list_ascii_of_string k) ∧
  (∀ r, r ∈ search sampleTrie "" ↔
        ∃ k, (k, r) ∈ [("cat", "ref1"); ("car", "ref2"); ("#todo", "refA")]
             ∧ startsWithHash k = false).
Proof.
  split; [reflexivity |]. split; [| split; [| split]].
  - destruct (Trie_search_prefix sampleTrie "cab" eq_refl) as (Hearly & _).
    apply (Hearly ["c"; "a"]%char "b"%char [] (MkTrieNode "a" []
             [("t"%char, MkTrieNode "t" ["ref1"] []);
              ("r"%char, MkTrieNode "r" ["ref2"] [])]));
      reflexivity.
  - destruct (Trie_search_prefix sampleTrie "ca" eq_refl) as (_ & Hfull & _).
    apply (Hfull (MkTrieNode "a" []
             [("t"%char, MkTrieNode "t" ["ref1"] []);
              ("r"%char, MkTrieNode "r" ["ref2"] [])])).
    reflexivity.
  - destruct (Trie_search_prefix sampleTrie "ca" eq_refl) as (_ & _ & Hops & _).
    apply (Hops (Some 0%Z)). reflexivity.
  - destruct (Trie_search_prefix sampleTrie "" eq_refl) as (_ & _ & _ & Hall).
    apply (Hall (Some 0%Z)). reflexivity.
Defined.

(** *** Hashtag buckets *)

Lemma add_hashtag_twice t k ref :
  startsWithHash k = true → add (add t k ref) k ref = add t k ref.
Proof.
  intros Hk. unfold add. rewrite Hk.
  destruct (bool_decide (ref ∈ default [] (hashtags t !! k))) eqn:Hin.
  - by rewrite Hin.
  - simpl. rewrite lookup_insert_eq. simpl.
    rewrite bool_decide_eq_true_2; [done |].
    apply elem_of_app. right. by apply list_elem_of_singleton.
Qed.

Lemma add_hashtag_iter t k ref n :
  startsWithHash k = true →
  Nat.iter (S n) (λ u, add u k ref) t = add t k ref.
Proof.
  intros Hk. induction n as [|n IH]; [done |].
  change (Nat.iter (S (S n)) (λ u, add u k ref) t)
    with (add (Nat.iter (S n) (λ u, add u k ref) t) k ref).
  rewrite IH. by apply add_hashtag_twice.
Qed.

Lemma search_add_hashtag t k ref :
  startsWithHash k = true →
  search (add t k ref) k =
    if bool_decide (ref ∈ search t k) then search t k else search t k ++ [ref].
Proof.
  intros Hk. unfold search, add. rewrite Hk.
  case_bool_decide; [done |]. simpl. by rewrite lookup_insert_eq.
Qed.

(** C7: for a key that starts with '#', adding the same (key, ref) pair again
    changes nothing: after any number of repeated calls the index is the one
    after the first call, [search key] holds [ref] exactly once, the bucket is
    duplicate-free and the references it held before keep their places. *)
Theorem Trie_add_hashtag_idempotent
    (lm : Time) (ops : list (string * string)) (k ref : string) (n : nat) :
  startsWithHash k = true →
  let t := built lm ops in
  let t' := Nat.iter (S n) (λ u, add u k ref) t in
  add (add t k ref) k ref = add t k ref ∧
  t' = add t k ref ∧
  length (filter (λ x, x = ref) (search t' k)) = 1%nat ∧
  NoDup (search t' k) ∧
  search t k `prefix_of` search t' k ∧
  bucketsNoDup t'.
Proof.
  intros Hk t t'.
  assert (Ht' : t' = add t k ref) by (by apply add_hashtag_iter).
  assert (Hinv : bucketsNoDup t') by
    (rewrite Ht'; apply add_bucketsNoDup, built_bucketsNoDup).
  assert (Hnd : NoDup (search t' k)).
  { unfold search. rewrite Hk. apply Hinv. }
  split; [by apply add_hashtag_twice |]. split; [done |].
  split; [| split; [done | split; [| done]]].
  - apply NoDup_occurs_once; [done |].
    rewrite Ht', search_add_hashtag by done.
    case_bool_decide; [done |].
    apply elem_of_app. right. by apply list_elem_of_singleton.
  - rewrite Ht', search_add_hashtag by done.
    case_bool_decide; [done |]. by apply prefix_app_r.
Qed.

Lemma Trie_add_hashtag_idempotent_witness :
  startsWithHash "#todo" = true ∧
  search (Nat.iter 3 (λ u, add u "#todo" "refA") (built None [])) "#todo" = ["refA"].
Proof.
  split; [reflexivity |].
  destruct (Trie_add_hashtag_idempotent None [] "#todo" "refA" 2 eq_refl)
    as (_ & -> & _).
  reflexivity.
Defined.

(** *** Staleness *)

(** C8: [shouldReindex] is a total boolean function; it answers [true]
    exactly when the index's own timestamp is strictly after the supplied one
    or the supplied count differs from the size counter.  For an index made
    by [add] calls the timestamp is the one captured at construction and the
    size counter is the number of entries the trie of titles holds, which is
    the number of insertions under title keys. *)
Theorem Trie_shouldReindex_spec :
  (∀ (t : Trie) (lm : Time) (n : Z),
      (shouldReindex t lm n = true ↔
         strictlyAfter (lastModified t) lm ∨ n ≠ size t) ∧
      (shouldReindex t lm n = false ↔
         ¬ (strictlyAfter (lastModified t) lm ∨ n ≠ size t))) ∧
  (∀ (lm0 : Time) (ops : list (string * string)) (lm : Time) (n : Z),
      (shouldReindex (built lm0 ops) lm n = true ↔
         strictlyAfter lm0 lm
         ∨ n ≠ Z.of_nat (length (getAllFrom (root (built lm0 ops))))) ∧
      length (getAllFrom (root (built lm0 ops))) = length (titleOps ops)).
Proof.
  split.
  - intros t lm n. split; [apply shouldReindex_true_iff |].
    rewrite <- shouldReindex_true_iff. by destruct (shouldReindex t lm n).
  - intros lm0 ops lm n. split.
    + rewrite shouldReindex_true_iff, built_entries.
      unfold built. by rewrite addAll_lastModified.
    + apply Nat2Z.inj. by rewrite <- built_entries, built_size.
Qed.

(** C10: adding under a key that starts with '#' leaves the size counter
    unchanged, so the answer of [shouldReindex] is the same before and after,
    and the size of an index counts the insertions under title keys only. *)
Theorem Trie_add_hashtag_keeps_size (t : Trie) (k ref : string) :
  startsWithHash k = true →
  size (add t k ref) = size t ∧
  (∀ lm n, shouldReindex (add t k ref) lm n = shouldReindex t lm n) ∧
  (∀ lm ops, size (built lm ops) = Z.of_nat (length (titleOps ops))).
Proof.
  intros Hk. split; [by apply add_hashtag_size |]. split.
  - intros lm n. unfold shouldReindex.
    by rewrite add_lastModified, add_hashtag_size.
  - apply built_size.
Qed.

Lemma Trie_add_hashtag_keeps_size_witness :
  startsWithHash "#todo" = true ∧
  size (add sampleTrie "#todo" "refB") = 2%Z.
Proof.
  split; [reflexivity |].
  destruct (Trie_add_hashtag_keeps_size sampleTrie "#todo" "refB" eq_refl)
    as (-> & _).
  reflexivity.
Defined.

End SearchIndexFacts.

(** * Properties of the Notepad operations *)

Module NotepadFacts.
Import Store NotepadTree.

Lemma lookup_alloc_new (h : heap) (o : Obj) : (h ++ [o]) !! length h = Some o.
Proof. by rewrite lookup_app_r, Nat.sub_diag by lia. Qed.

Lemma lookup_alloc_old (h : heap) (o o' : Obj) (l : loc) :
  h !! l = Some o → (h ++ [o']) !! l = Some o.
Proof. intros Hl. by apply lookup_app_l_Some. Qed.

Lemma lookup_fresh (h : heap) : h !! length h = None.
Proof. by apply lookup_ge_None. Qed.

Lemma getNotepad_Some h l np : getNotepad h l = Some np ↔ h !! l = Some (ONotepad np).
Proof.
  unfold getNotepad. destruct (h !! l) as [[]|]; split; intros; simplify_eq; done.
Qed.

Lemma getSection_Some h l s : getSection h l = Some s ↔ h !! l = Some (OSection s).
Proof.
  unfold getSection. destruct (h !! l) as [[]|]; split; intros; simplify_eq; done.
Qed.

Lemma getNote_Some h l n : getNote h l = Some n ↔ h !! l = Some (ONote n).
Proof.
  unfold getNote. destruct (h !! l) as [[]|]; split; intros; simplify_eq; done.
Qed.

Lemma existing_ne_fresh (h : heap) (l : loc) (o : Obj) :
  h !! l = Some o → l ≠ length h.
Proof. intros Hl%lookup_lt_Some. lia. Qed.

Section WithDates.
Context `{DateFns}.
Variable now : Date.

Lemma clone_Some h this np opts title :
  h !! this = Some (ONotepad np) →
  clone now h this opts title
  = Some (h ++ [ONotepad (cloneObj now np opts title)], length h).
Proof.
  intros Hp. unfold clone. apply getNotepad_Some in Hp. by rewrite Hp.
Qed.

Lemma clone_inv h this opts title h' r :
  clone now h this opts title = Some (h', r) →
  ∃ np, h !! this = Some (ONotepad np) ∧
        h' = h ++ [ONotepad (cloneObj now np opts title)] ∧ r = length h.
Proof.
  unfold clone. destruct (getNotepad h this) as [np|] eqn:Hp; [| done].
  simpl. intros [= <- <-]. exists np. by apply getNotepad_Some in Hp.
Qed.

Lemma addSection_Some h p s np sec :
  h !! p = Some (ONotepad np) →
  h !! s = Some (OSection sec) →
  addSection now h p s
  = Some (<[s := OSection (withSectionParent sec (Some (length h)))]>
            (h ++ [ONotepad (cloneObj now np
                     {| opt_lastModified := None;
                        opt_sections := Some (np_sections np ++ [s]);
                        opt_notepadAssets := None; opt_assets := None |} None)]),
          length h).
Proof.
  intros Hp Hs. unfold addSection.
  rewrite (proj2 (getNotepad_Some _ _ _) Hp). simpl.
  rewrite (clone_Some _ _ np) by done. simpl.
  unfold setSectionParent.
  rewrite (proj2 (getSection_Some _ _ _) (lookup_alloc_old _ _ _ _ Hs)).
  reflexivity.
Qed.

Lemma addSection_inv h p s h' r :
  addSection now h p s = Some (h', r) →
  ∃ np sec, h !! p = Some (ONotepad np) ∧ h !! s = Some (OSection sec).
Proof.
  unfold addSection.
  destruct (getNotepad h p) as [np|] eqn:Hp; [| done]. simpl.
  apply getNotepad_Some in Hp. rewrite (clone_Some _ _ np) by done. simpl.
  unfold setSectionParent.
  destruct (getSection _ s) as [sec|] eqn:Hs; [| done]. simpl. intros _.
  exists np, sec. split; [done |].
  apply getSection_Some in Hs.
  apply lookup_app_Some in Hs as [Hs | [Hge Hs]]; [done |].
  destruct (s - length h)%nat as [|k]; simpl in Hs; [done |].
  by rewrite lookup_nil in Hs.
Qed.

End WithDates.

(** *** Purity *)

Lemma pureStep_None h this child : pureStep h this child None.
Proof. intros h' r [=]. Qed.

Lemma pureStep_alloc h this o :
  is_Some (h !! this) → pureStep h this None (Some (alloc h o)).
Proof.
  intros [o0 Hthis] h' r [= <- <-].
  split; [apply lookup_fresh |].
  split; [rewrite lookup_alloc_new; eauto |].
  split; [symmetry; by eapply existing_ne_fresh |].
  split; [intros _; rewrite Hthis; by apply lookup_alloc_old |].
  intros l o' Hl. by apply lookup_alloc_old.
Qed.

Lemma pureStep_alloc_write h this c o o' oc :
  is_Some (h !! this) →
  h !! c = Some oc →
  reparented (h ++ [o]) (<[c := o']> (h ++ [o])) c (length h) →
  pureStep h this (Some c) (Some (<[c := o']> (h ++ [o]), length h)).
Proof.
  intros [o0 Hthis] Hc Hre h' r [= <- <-].
  assert (Hcne : c ≠ length h) by (by eapply existing_ne_fresh).
  split; [apply lookup_fresh |].
  split; [rewrite list_lookup_insert_ne by done; rewrite lookup_alloc_new; eauto |].
  split; [symmetry; by eapply existing_ne_fresh |].
  split.
  { intros Hne. rewrite list_lookup_insert_ne by congruence.
    rewrite Hthis. by apply lookup_alloc_old. }
  split.
  - intros l ol Hl Hlo. rewrite list_lookup_insert_ne by done.
    by apply lookup_alloc_old.
  - unfold reparented in *. by rewrite (lookup_alloc_old _ _ o _ Hc) in Hre; rewrite Hc.
Qed.

Lemma reparented_section h c sec p :
  h !! c = Some (OSection sec) →
  reparented h (<[c := OSection (withSectionParent sec (Some p))]> h) c p.
Proof.
  intros Hc. unfold reparented. rewrite Hc.
  rewrite list_lookup_insert_eq by (by eapply lookup_lt_Some). done.
Qed.

Lemma reparented_note h c n p :
  h !! c = Some (ONote n) →
  reparented h (<[c := ONote (withNoteParent n (Some p))]> h) c p.
Proof.
  intros Hc. unfold reparented. rewrite Hc.
  rewrite list_lookup_insert_eq by (by eapply lookup_lt_Some). done.
Qed.

Section Purity.
Context `{DateFns}.
Variable now : Date.

Lemma Notepad_addSection_pure h this s :
  pureStep h this (Some s) (addSection now h this s).
Proof.
  destruct (addSection now h this s) as [[h' r]|] eqn:Hrun;
    [| apply pureStep_None].
  destruct (addSection_inv _ _ _ _ _ _ Hrun) as (np & sec & Hp & Hs).
  rewrite (addSection_Some _ _ _ _ np sec) in Hrun by done. rewrite <- Hrun.
  eapply pureStep_alloc_write; [eauto | done |].
  apply reparented_section. by apply lookup_alloc_old.
Qed.

Lemma Notepad_addAsset_pure h this a :
  pureStep h this None (addAsset now h this a).
Proof.
  unfold addAsset. destruct (getNotepad h this) as [np|] eqn:Hp;
    [| apply pureStep_None].
  simpl. apply getNotepad_Some in Hp. rewrite (clone_Some _ _ _ np) by done.
  apply (pureStep_alloc h this). eauto.
Qed.

End Purity.

Lemma Section_addSection_pure h this s :
  pureStep h this (Some s) (SectionNote.addSection h this s).
Proof.
  unfold SectionNote.addSection.
  destruct (getSection h this) as [sec|] eqn:Hthis; [| apply pureStep_None].
  simpl. apply getSection_Some in Hthis.
  destruct (getSection h s) as [child|] eqn:Hs; [| apply pureStep_None].
  simpl. apply getSection_Some in Hs. unfold setSectionParent.
  rewrite (proj2 (getSection_Some _ _ _) (lookup_alloc_old _ _ _ _ Hs)). simpl.
  eapply pureStep_alloc_write; [eauto | done |].
  apply reparented_section. by apply lookup_alloc_old.
Qed.

Lemma Section_addNote_pure h this n :
  pureStep h this (Some n) (SectionNote.addNote h this n).
Proof.
  unfold SectionNote.addNote.
  destruct (getSection h this) as [sec|] eqn:Hthis; [| apply pureStep_None].
  simpl. apply getSection_Some in Hthis.
  destruct (getNote h n) as [child|] eqn:Hn; [| apply pureStep_None].
  simpl. apply getNote_Some in Hn. unfold setNoteParent.
  rewrite (proj2 (getNote_Some _ _ _) (lookup_alloc_old _ _ _ _ Hn)). simpl.
  eapply pureStep_alloc_write; [eauto | done |].
  apply reparented_note. by apply lookup_alloc_old.
Qed.

Lemma Note_addElement_pure h this e :
  pureStep h this None (SectionNote.addElement h this e).
Proof.
  unfold SectionNote.addElement.
  destruct (getNote h this) as [n|] eqn:Hthis; [| apply pureStep_None].
  simpl. apply getNote_Some in Hthis. apply (pureStep_alloc h this). eauto.
Qed.

Lemma Note_addSource_pure h this src :
  pureStep h this None (SectionNote.addSource h this src).
Proof.
  unfold SectionNote.addSource.
  destruct (getNote h this) as [n|] eqn:Hthis; [| apply pureStep_None].
  simpl. apply getNote_Some in Hthis. apply (pureStep_alloc h this). eauto.
Qed.

(** C2, as worded: the strict purity contract fails for [addSection], which
    writes the field [parent] of the Section it is given, an object that
    existed and that another Notepad holds. *)
Lemma Notepad_addSection_alters_child :
  ¬ strictlyPure sharedSectionStore 0
      (@addSection textDates "2018-01-02" sharedSectionStore 0 2).
Proof.
  intros Hpure.
  edestruct Hpure as (_ & _ & Hsame); [vm_compute; reflexivity |].
  specialize (Hsame 2%nat _ eq_refl). vm_compute in Hsame. discriminate Hsame.
Qed.

(** C2, amended: each structural operation returns a new object, which is
    neither the receiver nor any object that existed, and leaves every
    object that existed as it was, the receiver included, except that
    [addSection] and [addNote] write the parent back-reference of the child
    they are given: that field, and no other, then refers to the new
    parent. *)
Theorem structural_operations_pure `{DateFns} (now : Date) (h : heap) (this : loc) :
  (∀ s, pureStep h this (Some s) (addSection now h this s) ∧
        ∀ h' r, addSection now h this s = Some (h', r) →
                h' !! this = h !! this) ∧
  (∀ a, pureStep h this None (addAsset now h this a)) ∧
  (∀ s, pureStep h this (Some s) (SectionNote.addSection h this s)) ∧
  (∀ n, pureStep h this (Some n) (SectionNote.addNote h this n)) ∧
  (∀ e, pureStep h this None (SectionNote.addElement h this e)) ∧
  (∀ src, pureStep h this None (SectionNote.addSource h this src)).
Proof.
  split; [| split; [| split; [| split; [| split]]]].
  - intros s. split; [apply Notepad_addSection_pure |].
    intros h' r Hrun.
    destruct (addSection_inv _ _ _ _ _ _ Hrun) as (np & sec & Hp & Hs).
    destruct (Notepad_addSection_pure now h this s h' r Hrun)
      as (_ & _ & _ & Hthis & _).
    apply Hthis. intros [= ->]. congruence.
  - intros a. apply Notepad_addAsset_pure.
  - intros s. apply Section_addSection_pure.
  - intros n. apply Section_addNote_pure.
  - intros e. apply Note_addElement_pure.
  - intros src. apply Note_addSource_pure.
Qed.

Lemma structural_operations_pure_witness :
  @addSection textDates "2018-01-02" sharedSectionStore 0 2
  = Some (<[2%nat := OSection {| sec_title := "s"; sec_internalRef := "ref-s";
                                sec_sections := []; sec_notes := [];
                                sec_parent := Some 3%nat |}]>
            (sharedSectionStore
               ++ [ONotepad {| np_title := "notes";
                               np_lastModified := "2018-01-01";
                               np_sections := [2%nat];
                               np_notepadAssets := []; np_assets := [] |}]),
          3%nat) ∧
  unalteredExcept 2
    sharedSectionStore
    (<[2%nat := OSection {| sec_title := "s"; sec_internalRef := "ref-s";
                           sec_sections := []; sec_notes := [];
                           sec_parent := Some 3%nat |}]>
       (sharedSectionStore
          ++ [ONotepad {| np_title := "notes";
                          np_lastModified := "2018-01-01";
                          np_sections := [2%nat];
                          np_notepadAssets := []; np_assets := [] |}])).
Proof.
  split; [reflexivity |].
  destruct (@structural_operations_pure textDates "2018-01-02"
              sharedSectionStore 0) as (Hadd & _).
  destruct (Hadd 2%nat) as (Hstep & _).
  destruct (Hstep _ _ eq_refl) as (_ & _ & _ & _ & Hframe & _).
  exact Hframe.
Defined.

(** *** Appending a Section *)

(** C3: [p.addSection(s)] returns a Notepad [p2] whose sections are those of
    [p] followed by [s], so that [s] is the last one, and afterwards the
    parent back-reference of [s] refers to [p2], a new object that is not
    [p]; [p] itself is as it was. *)
Theorem Notepad_addSection_appends `{DateFns} (now : Date)
    (h : heap) (p s : loc) (np : NotepadObj) (sec : SectionObj) :
  h !! p = Some (ONotepad np) →
  h !! s = Some (OSection sec) →
  ∃ h' p2 np2,
    addSection now h p s = Some (h', p2) ∧
    h' !! p2 = Some (ONotepad np2) ∧
    np_sections np2 = np_sections np ++ [s] ∧
    last (np_sections np2) = Some s ∧
    h' !! s = Some (OSection (withSectionParent sec (Some p2))) ∧
    p2 ≠ p ∧ h !! p2 = None ∧ h' !! p = Some (ONotepad np).
Proof.
  intros Hp Hs.
  assert (Hsne : s ≠ length h) by (by eapply existing_ne_fresh).
  assert (Hpne : p ≠ length h) by (by eapply existing_ne_fresh).
  eexists _, (length h), _. split; [by apply addSection_Some |].
  split; [rewrite list_lookup_insert_ne by done; apply lookup_alloc_new |].
  split; [reflexivity |]. split; [simpl; apply last_snoc |].
  split.
  { rewrite list_lookup_insert_eq; [done |].
    rewrite length_app. apply lookup_lt_Some in Hs. lia. }
  split; [done |]. split; [apply lookup_fresh |].
  rewrite list_lookup_insert_ne by congruence. by apply lookup_alloc_old.
Qed.

Lemma Notepad_addSection_appends_witness :
  sharedSectionStore !! 0%nat = Some (ONotepad emptyNotepad) ∧
  ∃ h' p2 np2,
    @addSection textDates "2018-01-02" sharedSectionStore 0 2 = Some (h', p2) ∧
    h' !! p2 = Some (ONotepad np2) ∧
    np_sections np2 = [2%nat] ∧
    last (np_sections np2) = Some 2%nat ∧
    h' !! 2%nat = Some (OSection {| sec_title := "s"; sec_internalRef := "ref-s";
                                   sec_sections := []; sec_notes := [];
                                   sec_parent := Some p2 |}) ∧
    p2 ≠ 0%nat ∧ sharedSectionStore !! p2 = None ∧
    h' !! 0%nat = Some (ONotepad emptyNotepad).
Proof.
  split; [reflexivity |].
  exact (@Notepad_addSection_appends textDates "2018-01-02"
           sharedSectionStore 0 2 _ _ eq_refl eq_refl).
Defined.

(** *** Assets *)

Section Assets.
Context `{DateFns}.
Variable now : Date.

Lemma addAsset_Some h p np a :
  h !! p = Some (ONotepad np) →
  addAsset now h p a
  = Some (h ++ [ONotepad (cloneObj now np
                  {| opt_lastModified := None; opt_sections := None;
                     opt_notepadAssets := Some (np_notepadAssets np ++ [uuid a]);
                     opt_assets := Some (np_assets np ++ [a]) |} None)],
          length h).
Proof.
  intros Hp. unfold addAsset.
  rewrite (proj2 (getNotepad_Some _ _ _) Hp). simpl. by apply clone_Some.
Qed.

(** What an operation that keeps the asset lists does to them. *)
Lemma runOp_assets h p op h' p' :
  keepsAssetLists op →
  runOp now h p op = Some (h', p') →
  ∃ np np', h !! p = Some (ONotepad np) ∧ h' !! p' = Some (ONotepad np') ∧
    np_assets np' = np_assets np ++ assetsAdded op ∧
    np_notepadAssets np' = np_notepadAssets np ++ map uuid (assetsAdded op).
Proof.
  intros Hkeep Hrun. destruct op as [s | a | d | opts title]; simpl in *.
  - destruct (addSection_inv _ _ _ _ _ _ Hrun) as (np & sec & Hp & Hs).
    rewrite (addSection_Some _ _ _ _ np sec) in Hrun by done.
    injection Hrun as <- <-. eexists np, _. split; [done |].
    split.
    { rewrite list_lookup_insert_ne by (by eapply existing_ne_fresh).
      apply lookup_alloc_new. }
    simpl. by rewrite !app_nil_r.
  - unfold addAsset in Hrun.
    destruct (getNotepad h p) as [np|] eqn:Hp; [| done]. simpl in Hrun.
    apply getNotepad_Some in Hp. rewrite (clone_Some _ _ _ np) in Hrun by done.
    injection Hrun as <- <-. eexists np, _. split; [done |].
    split; [apply lookup_alloc_new |]. done.
  - apply clone_inv in Hrun as (np & Hp & -> & ->).
    eexists np, _. split; [done |]. split; [apply lookup_alloc_new |].
    simpl. by rewrite !app_nil_r.
  - destruct Hkeep as [Ha Hn].
    apply clone_inv in Hrun as (np & Hp & -> & ->).
    eexists np, _. split; [done |]. split; [apply lookup_alloc_new |].
    simpl. rewrite Ha, Hn. simpl. by rewrite !app_nil_r.
Qed.

Lemma runOps_identifiers ops h p h' p' np np' :
  Forall keepsAssetLists ops →
  runOps now h p ops = Some (h', p') →
  h !! p = Some (ONotepad np) →
  h' !! p' = Some (ONotepad np') →
  (∀ u, u ∈ np_notepadAssets np → u ∈ np_notepadAssets np') ∧
  (∀ a, OpAddAsset a ∈ ops → uuid a ∈ np_notepadAssets np').
Proof.
  intros Hkeep. revert h p np.
  induction Hkeep as [|op ops Hop Hops IH]; intros h p np Hrun Hp Hp'.
  - simpl in Hrun. injection Hrun as <- <-.
    assert (np' = np) as -> by congruence.
    split; [done |]. by intros a ?%elem_of_nil.
  - simpl in Hrun. destruct (runOp now h p op) as [[h1 p1]|] eqn:Hstep; [| done].
    destruct (runOp_assets _ _ _ _ _ Hop Hstep)
      as (np0 & np1 & Hp0 & Hp1 & Has & Hids).
    assert (np0 = np) as -> by congruence.
    destruct (IH _ _ _ Hrun Hp1 Hp') as [Hmono Hadded].
    split.
    + intros u Hu. apply Hmono. rewrite Hids. apply elem_of_app. by left.
    + intros a [Heq | Hin]%elem_of_cons; [| by apply Hadded].
      subst op. apply Hmono. rewrite Hids. simpl.
      apply elem_of_app. right. by left.
Qed.

End Assets.

(** C9, as worded: not every operation of Notepad keeps the identifiers of
    the assets added through [addAsset]: [clone] with a replacement for
    [notepadAssets] installs the list it is given. *)
Lemma Notepad_clone_drops_identifiers :
  ∃ h' p' np',
    @runOps textDates "2018-01-02" [ONotepad emptyNotepad] 0
      [@OpAddAsset textDates sampleAsset; dropIdentifiers] = Some (h', p') ∧
    h' !! p' = Some (ONotepad np') ∧
    sampleAsset ∈ np_assets np' ∧
    (uuid sampleAsset ∉ np_notepadAssets np') ∧
    ¬ assetsInUse np'.
Proof.
  eexists _, _, _. split; [vm_compute; reflexivity |].
  split; [reflexivity |]. simpl.
  split; [by left |]. split; [apply not_elem_of_nil |].
  intros Hinv. specialize (Hinv sampleAsset). simpl in Hinv.
  eapply not_elem_of_nil, Hinv. by left.
Qed.

(** C9, amended: [p.addAsset(a)] returns a Notepad whose assets are those of
    [p] followed by [a] and whose identifiers in use are those of [p]
    followed by [a.uuid]; so [addSection], [addAsset] and [modified], and
    [clone] when it is handed no replacement for [assets] or
    [notepadAssets], preserve that every asset has its uuid among the
    identifiers in use, and after any sequence of them every asset added
    through [addAsset] has its uuid there. *)
Theorem Notepad_addAsset_in_use `{DateFns} (now : Date) :
  (∀ h p np a,
      h !! p = Some (ONotepad np) →
      ∃ h' p2 np2,
        addAsset now h p a = Some (h', p2) ∧
        h' !! p2 = Some (ONotepad np2) ∧
        np_assets np2 = np_assets np ++ [a] ∧
        np_notepadAssets np2 = np_notepadAssets np ++ [uuid a]) ∧
  (∀ h p np op h' p',
      keepsAssetLists op →
      h !! p = Some (ONotepad np) →
      assetsInUse np →
      runOp now h p op = Some (h', p') →
      ∃ np', h' !! p' = Some (ONotepad np') ∧ assetsInUse np') ∧
  (∀ ops h p h' p' np',
      Forall keepsAssetLists ops →
      runOps now h p ops = Some (h', p') →
      h' !! p' = Some (ONotepad np') →
      ∀ a, OpAddAsset a ∈ ops → uuid a ∈ np_notepadAssets np').
Proof.
  split; [| split].
  - intros h p np a Hp. eexists _, (length h), _.
    split; [by apply addAsset_Some |].
    split; [apply lookup_alloc_new |]. done.
  - intros h p np op h' p' Hkeep Hp Hinv Hrun.
    destruct (runOp_assets _ _ _ _ _ _ Hkeep Hrun)
      as (np0 & np' & Hp0 & Hp' & Has & Hids).
    assert (np0 = np) as -> by congruence.
    exists np'. split; [done |].
    intros a. rewrite Has, Hids, !elem_of_app. intros [Ha | Ha].
    + left. by apply Hinv.
    + right. by apply list_elem_of_fmap_2.
  - intros ops h p h' p' np' Hkeep Hrun Hp' a Ha.
    destruct ops as [|op ops]; [by apply elem_of_nil in Ha |].
    assert (∃ np, h !! p = Some (ONotepad np)) as [np Hp].
    { simpl in Hrun. destruct (runOp now h p op) as [[h1 p1]|] eqn:Hstep; [| done].
      apply Forall_cons in Hkeep as [Hop _].
      destruct (runOp_assets _ _ _ _ _ _ Hop Hstep) as (np & _ & Hp & _). eauto. }
    by apply (runOps_identifiers now (op :: ops) h p h' p' np np').
Qed.

Lemma Notepad_addAsset_in_use_witness :
  [ONotepad emptyNotepad] !! 0%nat = Some (ONotepad emptyNotepad) ∧
  ∃ h' p2 np2,
    @addAsset textDates "2018-01-02" [ONotepad emptyNotepad] 0 sampleAsset
      = Some (h', p2) ∧
    h' !! p2 = Some (ONotepad np2) ∧
    np_assets np2 = [sampleAsset] ∧
    np_notepadAssets np2 = ["uuid-1"].
Proof.
  split; [reflexivity |].
  destruct (@Notepad_addAsset_in_use textDates "2018-01-02") as (Hadd & _ & _).
  exact (Hadd [ONotepad emptyNotepad] 0%nat emptyNotepad sampleAsset eq_refl).
Defined.

End NotepadFacts.

(** * Properties of flattening *)

Module FlattenFacts.
Import Store Flat NotepadFacts.

Lemma forEach_invariant {FN A : Type} (P : FN → Prop)
    (f : FN → A → option FN) (xs : list A) (acc acc' : FN) :
  (∀ a x a', x ∈ xs → P a → f a x = Some a' → P a') →
  P acc → forEach f xs acc = Some acc' → P acc'.
Proof.
  revert acc. induction xs as [|x xs IH]; intros acc Hstep Hacc; simpl.
  - by intros [= <-].
  - destruct (f acc x) as [a1|] eqn:Hx; [| done].
    apply IH.
    + intros a y a' Hy. apply Hstep. by right.
    + eapply Hstep; [by left | done | done].
Qed.

Lemma forEach_visits {FN A : Type} (R : relation FN) `{!PreOrder R}
    (f : FN → A → option FN) (xs : list A) (acc acc' : FN) :
  (∀ a x a', x ∈ xs → f a x = Some a' → R a a') →
  forEach f xs acc = Some acc' →
  R acc acc' ∧ ∀ x, x ∈ xs → ∃ a1 a2, f a1 x = Some a2 ∧ R a2 acc'.
Proof.
  revert acc. induction xs as [|x xs IH]; intros acc Hstep; simpl.
  - intros [= <-]. split; [done |]. by intros x ?%elem_of_nil.
  - destruct (f acc x) as [a1|] eqn:Hx; [| done]. intros Hrest.
    destruct (IH a1) as [Hr Hvis]; [| done |].
    { intros a y a' Hy. apply Hstep. by right. }
    assert (R acc a1) by (eapply Hstep; [by left | done]).
    split; [by etrans |].
    intros y [-> | Hy]%elem_of_cons; [eauto | by apply Hvis].
Qed.

Lemma forEach_total {FN A : Type} (f : FN → A → option FN) (xs : list A) (acc : FN) :
  (∀ a x, x ∈ xs → is_Some (f a x)) → is_Some (forEach f xs acc).
Proof.
  revert acc. induction xs as [|x xs IH]; intros acc Hstep; simpl; [eauto |].
  destruct (Hstep acc x) as [a1 ->]; [by left |].
  apply IH. intros a y Hy. apply Hstep. by right.
Qed.

(** What the descriptor of a Section says about its parent. *)
Lemma descriptor_fields h sec flat :
  descriptor h sec = Some flat →
  fs_title flat = sec_title sec ∧ fs_internalRef flat = sec_internalRef sec ∧
  ∀ r, fs_parentRef flat = Some r ↔ parentIsSection h sec r.
Proof.
  unfold descriptor, refBehind, parentIsSection.
  destruct (sec_parent sec) as [pl|]; simpl.
  - destruct (h !! pl) as [o|] eqn:Hpl; [| done]. simpl.
    destruct o as [np | ps | n]; simpl; [| | done]; intros [= <-]; simpl.
    + split; [done |]. split; [done |]. intros r. split; [done |].
      intros (pl' & ps & [= <-] & Hps & _). congruence.
    + split; [done |]. split; [done |]. intros r. split.
      * intros [= <-]. eauto.
      * intros (pl' & ps' & [= <-] & Hps & <-). congruence.
  - intros [= <-]. simpl. split; [done |]. split; [done |].
    intros r. split; [done |]. by intros (pl & ps & [=] & _).
Qed.

Lemma descriptor_top_level h sec flat :
  descriptor h sec = Some flat →
  parentIsNotepadOrUnset h sec → fs_parentRef flat = None.
Proof.
  intros Hd Htop. destruct (descriptor_fields _ _ _ Hd) as (_ & _ & Hp).
  destruct (fs_parentRef flat) as [r|]; [| done].
  destruct (proj1 (Hp r) eq_refl) as (pl & ps & Hpar & Hps & _).
  destruct Htop as [Hnone | (pl' & np & Hpar' & Hnp)]; congruence.
Qed.

Lemma flattenSectionLog_prefix fuel h log l log' :
  flattenSectionLog fuel h log l = Some log' → log `prefix_of` log'.
Proof.
  revert log l log'. induction fuel as [|fuel IH]; intros log l log'; [done |].
  simpl. destruct (getSection h l) as [sec|]; [| done]. simpl.
  destruct (descriptor h sec) as [flat|]; [| done]. simpl.
  destruct (forEach _ (sec_notes sec) _) as [log1|] eqn:Hnotes; [| done]. simpl.
  intros Hkids.
  apply (forEach_visits prefix) in Hnotes as [Hn _].
  2:{ intros a x a' _ [= <-]. by apply prefix_app_r. }
  apply (forEach_visits prefix) in Hkids as [Hk _].
  2:{ intros a x a' _. apply IH. }
  etrans; [| exact Hk]. etrans; [| exact Hn]. by apply prefix_app_r.
Qed.

Lemma elem_of_prefix {A : Type} (l1 l2 : list A) (x : A) :
  l1 `prefix_of` l2 → x ∈ l1 → x ∈ l2.
Proof. intros [k ->] Hx. apply elem_of_app. by left. Qed.

Lemma flattenSectionLog_describes fuel h log l log' :
  describesSections h log →
  flattenSectionLog fuel h log l = Some log' →
  describesSections h log'.
Proof.
  revert log l log'. induction fuel as [|fuel IH]; intros log l log' Hlog; [done |].
  simpl. destruct (getSection h l) as [sec|] eqn:Hl; [| done]. simpl.
  destruct (descriptor h sec) as [flat|] eqn:Hflat; [| done]. simpl.
  destruct (forEach _ (sec_notes sec) _) as [log1|] eqn:Hnotes; [| done]. simpl.
  apply forEach_invariant; [intros a x a' _; apply IH |].
  eapply (forEach_invariant (describesSections h)); [| | exact Hnotes].
  - intros a x a' _ Ha [= <-] flat' [Hin | Hin]%elem_of_app; [by apply Ha |].
    by apply list_elem_of_singleton in Hin.
  - intros flat' [Hin | Hin]%elem_of_app; [by apply Hlog |].
    apply list_elem_of_singleton in Hin as [= ->].
    exists l, sec. split; [by apply getSection_Some | done].
Qed.

Lemma flattenSectionLog_visits fuel h log l log' s :
  flattenSectionLog fuel h log l = Some log' →
  below h s l →
  ∃ sec flat, h !! s = Some (OSection sec) ∧ descriptor h sec = Some flat
              ∧ EmitSection flat ∈ log'.
Proof.
  revert log l log'. induction fuel as [|fuel IH]; intros log l log'; [done |].
  intros Hrun Hbelow. pose proof (flattenSectionLog_prefix _ _ _ _ _ Hrun) as Hpre.
  simpl in Hrun. destruct (getSection h l) as [sec|] eqn:Hl; [| done].
  simpl in Hrun. apply getSection_Some in Hl.
  destruct (descriptor h sec) as [flat|] eqn:Hflat; [| done]. simpl in Hrun.
  destruct (forEach _ (sec_notes sec) _) as [log1|] eqn:Hnotes; [| done].
  simpl in Hrun.
  apply (forEach_visits prefix) in Hnotes as [Hn _].
  2:{ intros a x a' _ [= <-]. by apply prefix_app_r. }
  apply (forEach_visits prefix) in Hrun as [Hk Hvis].
  2:{ intros a x a' _. apply flattenSectionLog_prefix. }
  inversion Hbelow as [| l' sec' c Hl' Hc Hbelow']; subst.
  - exists sec, flat. split; [done |]. split; [done |].
    eapply elem_of_prefix; [exact Hk |]. eapply elem_of_prefix; [exact Hn |].
    apply elem_of_app. right. by apply list_elem_of_singleton.
  - assert (sec' = sec) as -> by congruence.
    destruct (Hvis c Hc) as (a1 & a2 & Hc_run & Ha2).
    destruct (IH _ _ _ Hc_run Hbelow') as (sec0 & flat0 & Hs & Hd & Hin).
    exists sec0, flat0. split; [done |]. split; [done |].
    by eapply elem_of_prefix.
Qed.

Lemma flattenSectionLog_total fuel h log l :
  readable fuel h l = true → is_Some (flattenSectionLog fuel h log l).
Proof.
  revert log l. induction fuel as [|fuel IH]; intros log l; [done |].
  simpl. destruct (getSection h l) as [sec|]; [| done]. simpl.
  intros [Hpar Hkids]%andb_true_iff. apply bool_decide_eq_true in Hpar.
  unfold descriptor. destruct Hpar as [r ->]. simpl.
  destruct (forEach_total (logNote h) (sec_notes sec)
              (logSection log {| fs_title := sec_title sec;
                                 fs_internalRef := sec_internalRef sec;
                                 fs_parentRef := r |})) as [log1 ->].
  { intros a x _. unfold logNote. eauto. }
  simpl. apply forEach_total. intros a c Hc. apply IH.
  rewrite forallb_forall in Hkids. apply Hkids. by apply list_elem_of_In.
Qed.

Lemma elem_of_emittedSections log flat :
  flat ∈ emittedSections log ↔ EmitSection flat ∈ log.
Proof.
  unfold emittedSections. rewrite list_elem_of_omap. split.
  - intros ([flat' | n] & Hin & Heq); simplify_eq. done.
  - intros Hin. exists (EmitSection flat). done.
Qed.

(** C4, as worded: a top-level Section of the Notepad is emitted with a
    [parentRef] when its back-reference refers to a Section, as it does once
    the same Section has also been added to another Section. *)
Lemma flatten_top_level_with_parentRef :
  ∃ h p np,
    twiceHeldRun = Some (h, p) ∧
    h !! p = Some (ONotepad np) ∧
    np_sections np = [1%nat] ∧
    @flattenLog NotepadTree.textDates 2 h p
      = Some [EmitSection {| fs_title := "s"; fs_internalRef := "ref-s";
                             fs_parentRef := Some "ref-t" |}].
Proof.
  eexists _, _, _. split; [vm_compute; reflexivity |].
  split; [reflexivity |]. split; reflexivity.
Qed.

(** C4, amended: [flatten] emits for every Section at or below the Notepad's
    sections a descriptor with the Section's title and identifier, in which
    [parentRef] is present exactly when the Section's parent back-reference
    refers to a Section, whose identifier it then is; every descriptor
    emitted is such a one; and for a top-level Section whose back-reference
    is unset or refers to a Notepad the descriptor has no [parentRef]. *)
Theorem flatten_emits_descriptors `{DateFns}
    (fuel : nat) (h : heap) (N : loc) (np : NotepadObj) :
  h !! N = Some (ONotepad np) →
  forallb (readable fuel h) (np_sections np) = true →
  ∃ log,
    flattenLog fuel h N = Some log ∧
    (∀ flat, flat ∈ emittedSections log →
       ∃ s sec, h !! s = Some (OSection sec) ∧
         fs_title flat = sec_title sec ∧
         fs_internalRef flat = sec_internalRef sec ∧
         ∀ r, fs_parentRef flat = Some r ↔ parentIsSection h sec r) ∧
    (∀ top s, top ∈ np_sections np → below h s top →
       ∃ sec flat, h !! s = Some (OSection sec) ∧
         flat ∈ emittedSections log ∧
         fs_title flat = sec_title sec ∧
         fs_internalRef flat = sec_internalRef sec ∧
         ∀ r, fs_parentRef flat = Some r ↔ parentIsSection h sec r) ∧
    (∀ top sec, top ∈ np_sections np → h !! top = Some (OSection sec) →
       parentIsNotepadOrUnset h sec →
       ∃ flat, flat ∈ emittedSections log ∧
         fs_title flat = sec_title sec ∧
         fs_internalRef flat = sec_internalRef sec ∧
         fs_parentRef flat = None).
Proof.
  intros HN Hread. unfold flattenLog, flatten.
  rewrite (proj2 (getNotepad_Some _ _ _) HN). simpl.
  fold flattenSectionLog.
  destruct (forEach_total (flattenSectionLog fuel h) (np_sections np) [])
    as [log Hlog].
  { intros a x Hx. apply flattenSectionLog_total.
    rewrite forallb_forall in Hread. apply Hread. by apply list_elem_of_In. }
  exists log. split; [done |].
  assert (Hdesc : describesSections h log).
  { eapply (forEach_invariant (describesSections h)); [| | exact Hlog].
    - intros a x a' _. apply flattenSectionLog_describes.
    - by intros flat ?%elem_of_nil. }
  assert (Hvis : ∀ top s, top ∈ np_sections np → below h s top →
            ∃ sec flat, h !! s = Some (OSection sec) ∧
              descriptor h sec = Some flat ∧ EmitSection flat ∈ log).
  { intros top s Htop Hbelow.
    apply (forEach_visits prefix) in Hlog as [_ Hvis].
    2:{ intros a x a' _. apply flattenSectionLog_prefix. }
    destruct (Hvis top Htop) as (a1 & a2 & Hrun & Ha2).
    destruct (flattenSectionLog_visits _ _ _ _ _ _ Hrun Hbelow)
      as (sec & flat & Hs & Hd & Hin).
    exists sec, flat. split; [done |]. split; [done |].
    by eapply elem_of_prefix. }
  split; [| split].
  - intros flat Hin%elem_of_emittedSections.
    destruct (Hdesc flat Hin) as (s & sec & Hs & Hd).
    exists s, sec. split; [done |]. by apply descriptor_fields.
  - intros top s Htop Hbelow.
    destruct (Hvis top s Htop Hbelow) as (sec & flat & Hs & Hd & Hin).
    exists sec, flat. split; [done |].
    split; [by apply elem_of_emittedSections |]. by apply descriptor_fields.
  - intros top sec Htop Hs Hpar.
    destruct (Hvis top top Htop (below_here h top)) as (sec' & flat & Hs' & Hd & Hin).
    assert (sec' = sec) as -> by congruence.
    exists flat. split; [by apply elem_of_emittedSections |].
    destruct (descriptor_fields _ _ _ Hd) as (Ht & Hr & _).
    split; [done |]. split; [done |]. by eapply descriptor_top_level.
Qed.

Lemma flatten_emits_descriptors_witness :
  forallb (readable 3 nestedStore) [7%nat] = true ∧
  ∃ log,
    @flattenLog NotepadTree.textDates 3 nestedStore nestedNotepad = Some log ∧
    emittedSections log
      = [ {| fs_title := "a"; fs_internalRef := "ref-a"; fs_parentRef := None |};
          {| fs_title := "b"; fs_internalRef := "ref-b";
             fs_parentRef := Some "ref-a" |};
          {| fs_title := "c"; fs_internalRef := "ref-c";
             fs_parentRef := Some "ref-a" |} ] ∧
    ∀ top sec, top ∈ [7%nat] → nestedStore !! top = Some (OSection sec) →
      parentIsNotepadOrUnset nestedStore sec →
      ∃ flat, flat ∈ emittedSections log ∧
        fs_title flat = sec_title sec ∧
        fs_internalRef flat = sec_internalRef sec ∧
        fs_parentRef flat = None.
Proof.
  split; [reflexivity |].
  destruct (@flatten_emits_descriptors NotepadTree.textDates 3
              nestedStore nestedNotepad _ eq_refl eq_refl)
    as (log & Hlog & _ & _ & Htop).
  exists log. split; [exact Hlog |]. split; [| exact Htop].
  vm_compute in Hlog. injection Hlog as <-. reflexivity.
Defined.

End FlattenFacts.

(** * The round trip through the flat projection *)

Module RoundTripFacts.
Import Store Flat NotepadFacts FlattenFacts.

(** Induction over a tree with the hypothesis for every child. *)
Lemma SectionT_kids_ind (P : SectionT → Prop) :
  (∀ title r ss ns, Forall P ss → P (MkSectionT title r ss ns)) →
  ∀ t, P t.
Proof.
  intros Hstep. fix IH 1. intros [title r ss ns]. apply Hstep.
  induction ss as [|k ss IHss]; constructor; [apply IH | exact IHss].
Qed.

(** *** Filing *)

Lemma filed_nil f : filed f [] [] = f.
Proof. by destruct f. Qed.

Lemma filed_filed f ss ns ss' ns' :
  filed (filed f ss ns) ss' ns' = filed f (ss ++ ss') (ns ++ ns').
Proof. unfold filed. simpl. by rewrite !fold_left_app. Qed.

Lemma flatAddSection_filed f s : flatAddSection f s = filed f [s] [].
Proof. reflexivity. Qed.

Lemma putFlatNote_filed f n : putFlatNote f n = filed f [] [n].
Proof. reflexivity. Qed.

(** *** From the store to the tree *)

Lemma mapM_cons_Some {A B : Type} (g : A → option B) x xs ys :
  mapM g (x :: xs) = Some ys ↔
  ∃ y ys', g x = Some y ∧ mapM g xs = Some ys' ∧ ys = y :: ys'.
Proof.
  rewrite mapM_Some. split.
  - intros Hall. inversion Hall as [| ? y ? ys' Hy Hys]; subst.
    exists y, ys'. by rewrite mapM_Some.
  - intros (y & ys' & Hy & Hys & ->). constructor; [done |]. by apply mapM_Some.
Qed.

Lemma flatten_notes h r f nls ns :
  mapM (λ nl, noteTOf <$> getNote h nl) nls = Some ns →
  forallb (λ nl, match getNote h nl with
                 | None => false
                 | Some n => bool_decide (refBehind h (note_parent n) = Some (Some r))
                 end) nls = true →
  forEach (flatAddNote h) nls f
  = Some (filed f [] (map (flatNoteOfT (Some r)) ns)).
Proof.
  revert f ns. induction nls as [|nl nls IH]; intros f ns.
  - intros [= <-] _. simpl. by rewrite filed_nil.
  - intros (n & ns' & Hn & Hns & ->)%mapM_cons_Some.
    simpl. intros [Hl Hls]%andb_true_iff.
    unfold flatAddNote at 1.
    destruct (getNote h nl) as [no|]; [| done]. simpl in *.
    apply bool_decide_eq_true in Hl. rewrite Hl. simpl.
    injection Hn as <-.
    rewrite (IH _ ns') by done.
    rewrite putFlatNote_filed, filed_filed. reflexivity.
Qed.

Lemma flatten_tree fuel h holder l t f :
  sectionTree fuel h l = Some t →
  linked fuel h holder l = true →
  flattenSection FlatNotepad flatAddSection flatAddNote fuel h f l
  = Some (filed f (treeSecs holder t) (treeNotes t)).
Proof.
  revert holder l t f. induction fuel as [|fuel IH]; intros holder l t f; [done |].
  simpl. destruct (getSection h l) as [sec|]; [| done]. simpl.
  destruct (mapM (sectionTree fuel h) (sec_sections sec)) as [kids|] eqn:Hkids;
    [| done]. simpl.
  destruct (mapM _ (sec_notes sec)) as [ns|] eqn:Hns; [| done]. simpl.
  intros [= <-]. intros [[Hpar Hnotes]%andb_true_iff Hlinked]%andb_true_iff.
  apply bool_decide_eq_true in Hpar. unfold descriptor. rewrite Hpar. simpl.
  rewrite (flatten_notes _ (sec_internalRef sec) _ _ ns) by done. simpl.
  rewrite flatAddSection_filed, filed_filed. simpl.
  assert (Hall : ∀ f0,
    forEach (flattenSection FlatNotepad flatAddSection flatAddNote fuel h)
      (sec_sections sec) f0
    = Some (filed f0 (flat_map (treeSecs (Some (sec_internalRef sec))) kids)
                     (flat_map treeNotes kids))).
  { clear Hns Hnotes Hpar. revert kids Hkids Hlinked.
    induction (sec_sections sec) as [|c cs IHcs]; intros kids Hkids Hlinked f0.
    - injection Hkids as <-. simpl. by rewrite filed_nil.
    - apply mapM_cons_Some in Hkids as (k & kids' & Hk & Hkids' & ->).
      simpl in Hlinked. apply andb_true_iff in Hlinked as [Hc Hcs].
      simpl. rewrite (IH _ _ _ _ Hk Hc).
      rewrite (IHcs _ Hkids' Hcs). by rewrite filed_filed. }
  rewrite Hall, filed_filed. simpl. reflexivity.
Qed.

(** *** Filing under distinct identifiers *)

Lemma upsert_fresh {V : Type} (k : string) (v : V) (m : list (string * V)) :
  k ∉ map fst m → upsert k v m = m ++ [(k, v)].
Proof.
  induction m as [|[k' v'] m IH]; simpl; [done |].
  intros Hk. apply not_elem_of_cons in Hk as [Hne Hk].
  rewrite bool_decide_eq_false_2 by done. by rewrite IH.
Qed.

Lemma fold_upsert_fresh {V : Type} (key : V → string) (l : list V)
    (m : list (string * V)) :
  NoDup (map fst m ++ map key l) →
  fold_left (λ m x, upsert (key x) x m) l m = m ++ map (λ x, (key x, x)) l.
Proof.
  revert m. induction l as [|x l IH]; intros m Hnd; simpl.
  - by rewrite app_nil_r.
  - simpl in Hnd. apply NoDup_app in Hnd as (Hm & Hdis & Hl).
    apply NoDup_cons in Hl as [Hx Hl].
    rewrite upsert_fresh.
    2:{ intros Hin. apply (Hdis _ Hin). by left. }
    rewrite IH.
    + by rewrite <- app_assoc.
    + rewrite map_app. simpl. rewrite <- app_assoc. simpl.
      apply NoDup_app. split; [done |]. split.
      * intros y Hy [-> | Hy']%elem_of_cons.
        -- apply (Hdis _ Hy). by left.
        -- apply (Hdis _ Hy). by right.
      * by apply NoDup_cons.
Qed.

Lemma treeSecs_refs p t : map fs_internalRef (treeSecs p t) = sectionRefs t.
Proof.
  revert p. induction t as [title r ss ns IH] using SectionT_kids_ind.
  intros p. simpl. f_equal.
  induction IH as [|k ss Hk _ IHss]; simpl; [done |].
  by rewrite map_app, Hk, IHss.
Qed.

Lemma forest_secs_refs p F :
  map fs_internalRef (flat_map (treeSecs p) F) = flat_map sectionRefs F.
Proof.
  induction F as [|t F IH]; simpl; [done |].
  by rewrite map_app, treeSecs_refs, IH.
Qed.

Lemma treeNotes_refs t : map fn_internalRef (treeNotes t) = noteRefs t.
Proof.
  induction t as [title r ss ns IH] using SectionT_kids_ind.
  simpl. rewrite map_app, map_map. simpl. f_equal.
  induction IH as [|k ss Hk _ IHss]; simpl; [done |].
  by rewrite map_app, Hk, IHss.
Qed.

Lemma forest_notes_refs F :
  map fn_internalRef (flat_map treeNotes F) = flat_map noteRefs F.
Proof.
  induction F as [|t F IH]; simpl; [done |].
  by rewrite map_app, treeNotes_refs, IH.
Qed.

(** The flat projection of a forest with distinct identifiers, filed into an
    empty FlatNotepad, lists the descriptors and the notes as walked. *)
Lemma filed_forest f F :
  flat_sections f = [] → flat_notes f = [] →
  NoDup (flat_map sectionRefs F) →
  NoDup (flat_map noteRefs F) →
  map snd (flat_sections (filed f (flat_map (treeSecs None) F)
                                  (flat_map treeNotes F)))
    = flat_map (treeSecs None) F ∧
  map fst (flat_sections (filed f (flat_map (treeSecs None) F)
                                  (flat_map treeNotes F)))
    = flat_map sectionRefs F ∧
  map snd (flat_notes (filed f (flat_map (treeSecs None) F)
                               (flat_map treeNotes F)))
    = flat_map treeNotes F.
Proof.
  intros Hs Hn Hnds Hndn. unfold filed. simpl. rewrite Hs, Hn.
  rewrite !fold_upsert_fresh; simpl.
  - rewrite !map_map. simpl. rewrite !map_id.
    split; [done |]. split; [| done]. apply forest_secs_refs.
  - by rewrite forest_notes_refs.
  - by rewrite forest_secs_refs.
Qed.

(** *** Children by identifier *)

Lemma filter_flat_map {A B : Type} (P : B → Prop) `{!∀ x, Decision (P x)}
    (g : A → list B) (l : list A) :
  filter P (flat_map g l) = flat_map (λ x, filter P (g x)) l.
Proof.
  induction l as [|x l IH]; simpl; [done |]. by rewrite filter_app, IH.
Qed.

Lemma flat_map_nil {A B : Type} (g : A → list B) (l : list A) :
  Forall (λ x, g x = []) l → flat_map g l = [].
Proof. induction 1 as [|x l Hx _ IH]; simpl; [done |]. by rewrite Hx, IH. Qed.

Lemma filter_map_all {A B : Type} (P : B → Prop) `{!∀ x, Decision (P x)}
    (g : A → B) (l : list A) :
  (∀ x, P (g x)) → filter P (map g l) = map g l.
Proof.
  intros Hall. induction l as [|x l IH]; simpl; [done |].
  rewrite filter_cons, decide_True by done. by rewrite IH.
Qed.

Lemma filter_map_none {A B : Type} (P : B → Prop) `{!∀ x, Decision (P x)}
    (g : A → B) (l : list A) :
  (∀ x, ¬ P (g x)) → filter P (map g l) = [].
Proof.
  intros Hnone. induction l as [|x l IH]; simpl; [done |].
  by rewrite filter_cons, decide_False.
Qed.

Lemma not_in_forest_refs r (t : SectionT) (F : list SectionT) :
  r ∉ flat_map sectionRefs F → t ∈ F → r ∉ sectionRefs t.
Proof.
  intros Hr Ht Hin. apply Hr. apply list_elem_of_In, in_flat_map.
  exists t. split; by apply list_elem_of_In.
Qed.

Lemma subtree_ref t u : subtree t u → st_ref t ∈ sectionRefs u.
Proof.
  induction 1 as [| u k Hk Hsub IH].
  - destruct t. by left.
  - destruct u as [title r ss ns]. simpl in *. right.
    apply list_elem_of_In, in_flat_map. exists k.
    split; by apply list_elem_of_In.
Qed.

(** No descriptor of a tree names [r] as its parent when [r] is neither the
    holder of the tree nor one of its sections. *)
Lemma secs_under_none t : ∀ p r,
  p ≠ Some r → r ∉ sectionRefs t →
  filter (λ s, fs_parentRef s = Some r) (treeSecs p t) = [].
Proof.
  induction t as [title r0 ss ns IH] using SectionT_kids_ind.
  intros p r Hp Hr. simpl in *. apply not_elem_of_cons in Hr as [Hne Hr].
  rewrite filter_cons, decide_False by done.
  rewrite filter_flat_map. apply flat_map_nil.
  rewrite Forall_forall in IH. apply Forall_forall. intros k Hk.
  apply IH; [done | congruence |]. by eapply not_in_forest_refs.
Qed.

Lemma forest_secs_under_none F p r :
  p ≠ Some r → r ∉ flat_map sectionRefs F →
  filter (λ s, fs_parentRef s = Some r) (flat_map (treeSecs p) F) = [].
Proof.
  intros Hp Hr. rewrite filter_flat_map. apply flat_map_nil, Forall_forall.
  intros k Hk. apply secs_under_none; [done |]. by eapply not_in_forest_refs.
Qed.

Lemma treeSecs_head p t :
  treeSecs p t = descOf p t :: flat_map (treeSecs (Some (st_ref t))) (st_sections t).
Proof. by destruct t. Qed.

(** The descriptors that name the holder [r] of a forest are those of its
    roots. *)
Lemma forest_secs_under_holder F r :
  r ∉ flat_map sectionRefs F →
  filter (λ s, fs_parentRef s = Some r) (flat_map (treeSecs (Some r)) F)
  = map (descOf (Some r)) F.
Proof.
  induction F as [|t F IH]; intros Hr; simpl; [done |].
  simpl in Hr. apply not_elem_of_app in Hr as [Ht HF].
  rewrite filter_app, IH by done. rewrite treeSecs_head, filter_cons.
  rewrite decide_True by (by destruct t).
  rewrite forest_secs_under_none; [done | |].
  - destruct t as [title r' ss ns]. simpl in *.
    apply not_elem_of_cons in Ht as [Hne _]. congruence.
  - destruct t as [title r' ss ns]. simpl in *.
    by apply not_elem_of_cons in Ht as [_ ?].
Qed.

Lemma NoDup_forest_split (F1 F2 : list SectionT) (u : SectionT) :
  NoDup (flat_map sectionRefs (F1 ++ u :: F2)) →
  NoDup (sectionRefs u) ∧
  ∀ r, r ∈ sectionRefs u →
       (r ∉ flat_map sectionRefs F1) ∧ (r ∉ flat_map sectionRefs F2).
Proof.
  rewrite flat_map_app. simpl. intros (H1 & Hdis1 & H2)%NoDup_app.
  apply NoDup_app in H2 as (Hu & Hdis2 & H3). split; [done |].
  intros r Hr. split.
  - intros Hin. apply (Hdis1 _ Hin). apply elem_of_app. by left.
  - by apply Hdis2.
Qed.

(** In a tree with distinct identifiers, the descriptors that name a
    section [t] of the tree as their parent are those of the children of
    [t]. *)
Lemma secs_under_subtree t u : ∀ p,
  NoDup (sectionRefs u) → subtree t u → p ≠ Some (st_ref t) →
  filter (λ s, fs_parentRef s = Some (st_ref t)) (treeSecs p u)
  = map (descOf (Some (st_ref t))) (st_sections t).
Proof.
  induction u as [title r ss ns IH] using SectionT_kids_ind.
  intros p Hnd Hsub Hp. rewrite treeSecs_head, filter_cons.
  rewrite decide_False by done. simpl in Hnd. apply NoDup_cons in Hnd as [Hr Hss].
  inversion Hsub as [| u' k Hk Hsub']; subst; simpl.
  - by apply forest_secs_under_holder.
  - simpl in Hk. apply list_elem_of_split in Hk as (F1 & F2 & ->).
    destruct (NoDup_forest_split _ _ _ Hss) as [Hk Hout].
    pose proof (subtree_ref _ _ Hsub') as Hin.
    destruct (Hout _ Hin) as [Hn1 Hn2].
    assert (Hne : Some r ≠ Some (st_ref t)).
    { intros [= ->]. apply Hr. rewrite flat_map_app. simpl.
      rewrite !elem_of_app. right. by left. }
    rewrite flat_map_app. simpl. rewrite !filter_app.
    rewrite !forest_secs_under_none by done. simpl. rewrite app_nil_r.
    rewrite Forall_forall in IH. apply IH; [| done | done | done].
    rewrite elem_of_app. right. by left.
Qed.

Lemma forest_secs_under_subtree t u F :
  NoDup (flat_map sectionRefs F) → u ∈ F → subtree t u →
  filter (λ s, fs_parentRef s = Some (st_ref t)) (flat_map (treeSecs None) F)
  = map (descOf (Some (st_ref t))) (st_sections t).
Proof.
  intros Hnd Hu Hsub. apply list_elem_of_split in Hu as (F1 & F2 & ->).
  destruct (NoDup_forest_split _ _ _ Hnd) as [Hk Hout].
  destruct (Hout _ (subtree_ref _ _ Hsub)) as [Hn1 Hn2].
  rewrite flat_map_app. simpl. rewrite !filter_app.
  rewrite !forest_secs_under_none by done. simpl. rewrite app_nil_r.
  by apply secs_under_subtree.
Qed.

(** The descriptors without a parent are those of the roots. *)
Lemma secs_nested_have_parent t : ∀ r p,
  p = None →
  filter (λ s, fs_parentRef s = p) (treeSecs (Some r) t) = [].
Proof.
  induction t as [title r0 ss ns IH] using SectionT_kids_ind.
  intros r p ->. simpl. rewrite filter_cons, decide_False by done.
  rewrite filter_flat_map. apply flat_map_nil.
  rewrite Forall_forall in IH. apply Forall_forall. intros k Hk. by apply IH.
Qed.

Lemma forest_secs_top F p :
  p = None →
  filter (λ s, fs_parentRef s = p) (flat_map (treeSecs None) F)
  = map (descOf None) F.
Proof.
  intros ->. induction F as [|t F IH]; simpl; [done |].
  rewrite filter_app, IH, treeSecs_head, filter_cons.
  rewrite decide_True by (by destruct t). simpl. f_equal.
  rewrite filter_flat_map, flat_map_nil; [done |].
  apply Forall_forall. intros k _. by apply secs_nested_have_parent.
Qed.

(** *** Notes by the identifier of their Section *)

Lemma treeNotes_head t :
  treeNotes t = map (flatNoteOfT (Some (st_ref t))) (st_notes t)
                ++ flat_map treeNotes (st_sections t).
Proof. by destruct t. Qed.

Lemma notes_under_none t : ∀ r,
  r ∉ sectionRefs t →
  filter (λ n, fn_parent n = Some r) (treeNotes t) = [].
Proof.
  induction t as [title r0 ss ns IH] using SectionT_kids_ind.
  intros r Hr. simpl in *. apply not_elem_of_cons in Hr as [Hne Hr].
  rewrite filter_app, filter_map_none by (simpl; congruence).
  rewrite filter_flat_map. apply flat_map_nil.
  rewrite Forall_forall in IH. apply Forall_forall. intros k Hk.
  apply IH; [done |]. by eapply not_in_forest_refs.
Qed.

Lemma forest_notes_under_none F r :
  r ∉ flat_map sectionRefs F →
  filter (λ n, fn_parent n = Some r) (flat_map treeNotes F) = [].
Proof.
  intros Hr. rewrite filter_flat_map. apply flat_map_nil, Forall_forall.
  intros k Hk. apply notes_under_none. by eapply not_in_forest_refs.
Qed.

Lemma notes_under_subtree t u :
  NoDup (sectionRefs u) → subtree t u →
  filter (λ n, fn_parent n = Some (st_ref t)) (treeNotes u)
  = map (flatNoteOfT (Some (st_ref t))) (st_notes t).
Proof.
  induction u as [title r ss ns IH] using SectionT_kids_ind.
  intros Hnd Hsub. rewrite treeNotes_head, filter_app.
  simpl in Hnd. apply NoDup_cons in Hnd as [Hr Hss].
  inversion Hsub as [| u' k Hk Hsub']; subst; simpl.
  - rewrite filter_map_all by done.
    rewrite forest_notes_under_none by done. by rewrite app_nil_r.
  - simpl in Hk. apply list_elem_of_split in Hk as (F1 & F2 & ->).
    destruct (NoDup_forest_split _ _ _ Hss) as [Hk Hout].
    pose proof (subtree_ref _ _ Hsub') as Hin.
    destruct (Hout _ Hin) as [Hn1 Hn2].
    assert (Hne : r ≠ st_ref t).
    { intros ->. apply Hr. rewrite flat_map_app. simpl.
      rewrite !elem_of_app. right. by left. }
    rewrite filter_map_none by (simpl; congruence). simpl.
    rewrite flat_map_app. simpl. rewrite !filter_app.
    rewrite !forest_notes_under_none by done. simpl. rewrite app_nil_r.
    rewrite Forall_forall in IH. apply IH; [| done | done].
    rewrite elem_of_app. right. by left.
Qed.

Lemma forest_notes_under_subtree t u F :
  NoDup (flat_map sectionRefs F) → u ∈ F → subtree t u →
  filter (λ n, fn_parent n = Some (st_ref t)) (flat_map treeNotes F)
  = map (flatNoteOfT (Some (st_ref t))) (st_notes t).
Proof.
  intros Hnd Hu Hsub. apply list_elem_of_split in Hu as (F1 & F2 & ->).
  destruct (NoDup_forest_split _ _ _ Hnd) as [Hk Hout].
  destruct (Hout _ (subtree_ref _ _ Hsub)) as [Hn1 Hn2].
  rewrite flat_map_app. simpl. rewrite !filter_app.
  rewrite !forest_notes_under_none by done. simpl. rewrite app_nil_r.
  by apply notes_under_subtree.
Qed.

(** *** Every parent resolves *)

Lemma secs_parents t : ∀ p s,
  s ∈ treeSecs p t →
  fs_parentRef s = p ∨ ∃ r, fs_parentRef s = Some r ∧ r ∈ sectionRefs t.
Proof.
  induction t as [title r0 ss ns IH] using SectionT_kids_ind.
  intros p s. simpl. intros [-> | Hin]%elem_of_cons; [by left |].
  right. apply list_elem_of_In, in_flat_map in Hin as (k & Hk & Hin).
  apply list_elem_of_In in Hk, Hin. rewrite Forall_forall in IH.
  destruct (IH k Hk _ _ Hin) as [Hp | (r & Hp & Hr)].
  - exists r0. split; [done | by left].
  - exists r. split; [done |]. right.
    apply list_elem_of_In, in_flat_map. exists k.
    split; by apply list_elem_of_In.
Qed.

Lemma forest_secs_parents F s :
  s ∈ flat_map (treeSecs None) F →
  fs_parentRef s = None ∨
  ∃ r, fs_parentRef s = Some r ∧ r ∈ flat_map sectionRefs F.
Proof.
  intros (u & Hu & Hin)%list_elem_of_In%in_flat_map.
  apply list_elem_of_In in Hu, Hin.
  destruct (secs_parents _ _ _ Hin) as [Hp | (r & Hp & Hr)]; [by left |].
  right. exists r. split; [done |].
  apply list_elem_of_In, in_flat_map. exists u. split; by apply list_elem_of_In.
Qed.

(** *** Depth *)

Lemma height_le_secs t : ∀ p, (height t ≤ length (treeSecs p t))%nat.
Proof.
  induction t as [title r0 ss ns IH] using SectionT_kids_ind.
  intros p. simpl. apply le_n_S.
  induction IH as [|k ss Hk _ IHss]; simpl; [lia |].
  rewrite length_app. specialize (Hk (Some r0)). lia.
Qed.

Lemma height_kid (t k : SectionT) :
  k ∈ st_sections t → (S (height k) ≤ height t)%nat.
Proof.
  destruct t as [title r ss ns]. simpl. intros Hk. apply le_n_S.
  induction ss as [|k' ss IH]; [by apply elem_of_nil in Hk |].
  simpl. apply elem_of_cons in Hk as [-> | Hk]; [lia |].
  specialize (IH Hk). lia.
Qed.

Lemma forest_length_secs (u : SectionT) F p :
  u ∈ F → (length (treeSecs p u) ≤ length (flat_map (treeSecs p) F))%nat.
Proof.
  intros (F1 & F2 & ->)%list_elem_of_split.
  rewrite flat_map_app. simpl. rewrite !length_app. lia.
Qed.

(** *** Rebuilding a tree *)

Lemma subtree_kid_of t u k : subtree t u → k ∈ st_sections t → subtree k u.
Proof.
  induction 1 as [| u k' Hk' Hsub IH]; intros Hk.
  - eapply subtree_kid; [done | constructor].
  - eapply subtree_kid; [done | by apply IH].
Qed.

Lemma mapM_map_id {A B : Type} (g : B → option A) (d : A → B) (l : list A) :
  Forall (λ x, g (d x) = Some x) l → mapM g (map d l) = Some l.
Proof.
  intros Hall. apply mapM_Some. induction Hall; simpl; by constructor.
Qed.

Lemma noteTOfFlat_flatNoteOfT r ns :
  map noteTOfFlat (map (flatNoteOfT r) ns) = ns.
Proof.
  rewrite map_map. rewrite <- (map_id ns) at 2. apply map_ext.
  by intros [].
Qed.

Lemma buildSection_subtree f F :
  map snd (flat_sections f) = flat_map (treeSecs None) F →
  map snd (flat_notes f) = flat_map treeNotes F →
  NoDup (flat_map sectionRefs F) →
  ∀ t u p fuel, u ∈ F → subtree t u → (height t ≤ fuel)%nat →
    buildSection fuel f (descOf p t) = Some t.
Proof.
  intros Hsecs Hnotes Hnd t.
  induction t as [title r ss ns IH] using SectionT_kids_ind.
  intros u p fuel Hu Hsub Hfuel.
  destruct fuel as [|fuel]; [simpl in Hfuel; lia |].
  pose proof (forest_secs_under_subtree _ u F Hnd Hu Hsub) as Hkids.
  pose proof (forest_notes_under_subtree _ u F Hnd Hu Hsub) as Hown.
  simpl in Hkids, Hown.
  simpl. unfold sectionsUnder, notesUnder. rewrite Hsecs, Hnotes, Hkids, Hown.
  rewrite mapM_map_id.
  - simpl. by rewrite noteTOfFlat_flatNoteOfT.
  - rewrite Forall_forall in IH. apply Forall_forall. intros k Hk.
    apply (IH k Hk u); [done | by eapply subtree_kid_of |].
    pose proof (height_kid (MkSectionT title r ss ns) k Hk). lia.
Qed.

(** *** The round trip *)

(** In [nestedStore] the Section b is held by the Section at 7, while its
    back-reference still names the earlier copy at 6 of the same Section. *)
Example nested_backref_on_copy :
  (sec_sections <$> getSection nestedStore 7) = Some [5%nat; 4%nat] ∧
  (sec_parent <$> getSection nestedStore 5) = Some (Some 6%nat) ∧
  (sec_internalRef <$> getSection nestedStore 6)
    = (sec_internalRef <$> getSection nestedStore 7).
Proof. repeat split. Qed.

Lemma flatten_forest fuel h ls F f :
  mapM (sectionTree fuel h) ls = Some F →
  forallb (linked fuel h None) ls = true →
  forEach (flattenSection FlatNotepad flatAddSection flatAddNote fuel h) ls f
  = Some (filed f (flat_map (treeSecs None) F) (flat_map treeNotes F)).
Proof.
  revert F f. induction ls as [|l ls IH]; intros F f HF Hlinked.
  - injection HF as <-. simpl. by rewrite filed_nil.
  - apply mapM_cons_Some in HF as (t & F' & Ht & HF' & ->).
    simpl in Hlinked. apply andb_true_iff in Hlinked as [Hl Hls].
    simpl. rewrite (flatten_tree _ _ _ _ _ _ Ht Hl).
    rewrite (IH _ _ HF' Hls). by rewrite filed_filed.
Qed.

Lemma toNotepad_filed f F :
  flat_sections f = [] → flat_notes f = [] →
  NoDup (flat_map sectionRefs F) →
  NoDup (flat_map noteRefs F) →
  toNotepad (filed f (flat_map (treeSecs None) F) (flat_map treeNotes F))
  = Some {| t_title := flat_title f;
            t_notepadAssets := flat_notepadAssets f; t_sections := F |}.
Proof.
  intros Hs Hn Hnds Hndn.
  destruct (filed_forest f F Hs Hn Hnds Hndn) as (Hsecs & Hkeys & Hnotes).
  set (g := filed f _ _) in *. unfold toNotepad.
  assert (Hres : parentsResolve g = true).
  { unfold parentsResolve. rewrite Hsecs, Hkeys. apply forallb_forall.
    intros s Hin%list_elem_of_In.
    destruct (forest_secs_parents _ _ Hin) as [-> | (r & -> & Hr)]; [done |].
    by apply bool_decide_eq_true. }
  rewrite Hres. unfold sectionsUnder at 1. rewrite Hsecs, forest_secs_top by done.
  rewrite mapM_map_id; [done |].
  apply Forall_forall. intros u Hu.
  apply (buildSection_subtree g F Hsecs Hnotes Hnds u u); [done | constructor |].
  rewrite <- (length_map snd), Hsecs.
  etrans; [apply (height_le_secs u None) |]. by apply forest_length_secs.
Qed.

(** C1, as worded: a Notepad built through the public operations need not
    survive the round trip.  When a Section is held twice, here at the top
    level and below another Section, the reconstruction holds it once: the
    top-level relationship of the Notepad is missing from it. *)
Lemma roundtrip_loses_shared_section :
  ∃ h N T f T',
    sharedChildRun = Some (h, N) ∧
    notepadTree 3 h N = Some T ∧
    @flattenNotepad NotepadTree.textDates 3 h N = Some f ∧
    toNotepad f = Some T' ∧
    (None, "ref-b") ∈ flat_map (childEdges None) (t_sections T) ∧
    (None, "ref-b") ∉ flat_map (childEdges None) (t_sections T').
Proof.
  eexists _, _, _, _, _. split; [vm_compute; reflexivity |].
  split; [vm_compute; reflexivity |]. split; [vm_compute; reflexivity |].
  split; [vm_compute; reflexivity |]. simpl. split; [by left |].
  intros Hin. repeat (apply elem_of_cons in Hin as [[=] | Hin]).
  by apply elem_of_nil in Hin.
Qed.

(** C1, amended: for a Notepad whose Sections carry pairwise distinct
    identifiers, whose Notes do too, and whose parent back-references agree
    with the tree (the parent of a top-level Section is a Notepad or unset,
    that of a nested Section or of a Note bears the identifier of the
    Section that holds it), [flatten] returns a flat projection and
    [toNotepad] rebuilds from it the tree of the Notepad itself: the same
    title and identifiers in use, the same Sections in the same order with
    the same children, and the same Notes with their elements and
    bibliography; so the identifiers and the parent/child relationships are
    the same. *)
Theorem flatten_toNotepad_roundtrip `{DateFns}
    (fuel : nat) (h : heap) (N : loc) (T : NotepadT) :
  notepadTree fuel h N = Some T →
  backrefsAgree fuel h N = true →
  NoDup (flat_map sectionRefs (t_sections T)) →
  NoDup (flat_map noteRefs (t_sections T)) →
  ∃ f T',
    flattenNotepad fuel h N = Some f ∧
    toNotepad f = Some T' ∧
    T' = T ∧
    flat_map sectionRefs (t_sections T') = flat_map sectionRefs (t_sections T) ∧
    flat_map noteRefs (t_sections T') = flat_map noteRefs (t_sections T) ∧
    flat_map (childEdges None) (t_sections T')
      = flat_map (childEdges None) (t_sections T).
Proof.
  unfold notepadTree, backrefsAgree, flattenNotepad, flatten.
  destruct (getNotepad h N) as [np|]; [| done]. simpl.
  destruct (mapM (sectionTree fuel h) (np_sections np)) as [F|] eqn:HF; [| done].
  simpl. intros [= <-] Hlinked Hnds Hndn. simpl in *.
  rewrite (flatten_forest _ _ _ F) by done.
  eexists _, _. split; [reflexivity |].
  split; [by apply toNotepad_filed |]. done.
Qed.

Lemma flatten_toNotepad_roundtrip_witness :
  notepadTree 3 nestedStore nestedNotepad
    = Some {| t_title := "notes"; t_notepadAssets := [];
              t_sections :=
                [MkSectionT "a" "ref-a"
                   [MkSectionT "b" "ref-b" []
                      [{| nt_title := "n"; nt_time := 0;
                          nt_elements := [{| el_type := "markdown";
                                             el_content := "#todo";
                                             el_args := [] |}];
                          nt_bibliography := [];
                          nt_internalRef := "ref-n" |}];
                    MkSectionT "c" "ref-c" [] []] []] |} ∧
  backrefsAgree 3 nestedStore nestedNotepad = true ∧
  ∃ f, @flattenNotepad NotepadTree.textDates 3 nestedStore nestedNotepad = Some f ∧
       toNotepad f = notepadTree 3 nestedStore nestedNotepad.
Proof.
  split; [reflexivity |]. split; [reflexivity |].
  destruct (@flatten_toNotepad_roundtrip NotepadTree.textDates 3
              nestedStore nestedNotepad _ eq_refl eq_refl)
    as (f & T' & Hf & HT' & -> & _).
  - compute_done.
  - compute_done.
  - exists f. split; [exact Hf | exact HT'].
Defined.

End RoundTripFacts.

(** * Properties of the search of a Note *)

Module NoteSearchFacts.
Import Store NoteSearch.

Lemma startsWith_spec (s q : string) :
  startsWith s q = true ↔ ∃ post : string, s = q +:+ post.
Proof.
  revert s. induction q as [|a q IH]; intros s; simpl.
  - split; [intros _; by exists s | done].
  - destruct s as [|b s].
    + split; [done | by intros [post [=]]].
    + rewrite andb_true_iff, bool_decide_eq_true, IH. split.
      * intros [-> [post ->]]. by exists post.
      * intros [post [= -> ->]]. eauto.
Qed.

Lemma includes_spec (s q : string) :
  includes s q = true ↔ ∃ pre post : string, s = pre +:+ q +:+ post.
Proof.
  induction s as [|b s IH].
  - simpl. rewrite orb_false_r, startsWith_spec. split.
    + intros [post Hs]. by exists "", post.
    + intros (pre & post & Hs). destruct pre; simpl in Hs; [eauto | done].
  - cbn [includes]. rewrite orb_true_iff, IH, startsWith_spec. split.
    + intros [[post Hs] | (pre & post & ->)].
      * by exists "", post.
      * by exists (String b pre), post.
    + intros ([|c pre] & post & Hs); simpl in Hs.
      * left. eauto.
      * right. injection Hs as -> ->. eauto.
Qed.

(** The hashtags of the texts used by the tests of Note. *)
Example scanHashtags_todo :
  scanHashtags None "Hello. There is #todo here." = ["#todo"].
Proof. reflexivity. Qed.

Example scanHashtags_two :
  scanHashtags None "We have #blah and #bloop here." = ["#blah"; "#bloop"].
Proof. reflexivity. Qed.

Example scanHashtags_none :
  scanHashtags None "Hello. There are no hashtags here." = [].
Proof. reflexivity. Qed.

(** C5: [search] with the empty query returns the note itself; with a
    non-empty query that does not start with '#' it returns the note when
    the query occurs in the title, the case of letters ignored, and nothing
    otherwise; with a query that starts with '#' it returns the note when
    the query is one of the note's hashtags, and nothing otherwise, so that
    a proper prefix of a hashtag that is not itself a hashtag of the note
    finds nothing. *)
Theorem Note_search_spec (this : loc) (n : NoteObj) (query : string) :
  (query = "" → search this n query = [this]) ∧
  (query ≠ "" → startsWithHash query = false →
     (occursIgnoringCase query (note_title n) → search this n query = [this]) ∧
     (¬ occursIgnoringCase query (note_title n) → search this n query = [])) ∧
  (startsWithHash query = true →
     (query ∈ getHashtags n → search this n query = [this]) ∧
     (query ∉ getHashtags n → search this n query = []) ∧
     (∀ tag, tag ∈ getHashtags n → properPrefix query tag →
             query ∉ getHashtags n → search this n query = [])).
Proof.
  split; [| split].
  - intros ->. reflexivity.
  - intros Hne Hq. unfold search, occursIgnoringCase.
    rewrite bool_decide_eq_false_2, Hq by done.
    destruct (includes _ _) eqn:Hinc.
    + apply includes_spec in Hinc. split; [done |]. intros Hno. by destruct Hno.
    + split; [| done]. intros Hocc%includes_spec. congruence.
  - intros Hq. assert (Hne : query ≠ "") by (by intros ->).
    unfold search. rewrite bool_decide_eq_false_2, Hq by done.
    split; [| split].
    + intros Hin. by rewrite bool_decide_eq_true_2.
    + intros Hin. by rewrite bool_decide_eq_false_2.
    + intros tag _ _ Hin. by rewrite bool_decide_eq_false_2.
Qed.

Lemma Note_search_spec_witness :
  search 7 testNote "" = [7%nat] ∧
  search 7 testNote "te" = [7%nat] ∧
  search 7 testNote "TE" = [7%nat] ∧
  search 7 testNote "invalid" = [] ∧
  search 7 testNote "#match" = [7%nat] ∧
  search 7 testNote "#mat" = [] ∧
  search 7 testNote "#test" = [].
Proof.
  destruct (Note_search_spec 7 testNote "") as (Hempty & _ & _).
  destruct (Note_search_spec 7 testNote "te") as (_ & Hte & _).
  destruct (Note_search_spec 7 testNote "#match") as (_ & _ & Hmatch).
  destruct (Note_search_spec 7 testNote "#mat") as (_ & _ & Hmat).
  split; [exact (Hempty eq_refl) |].
  split.
  { apply Hte; [done | reflexivity |]. by exists "", "st". }
  split; [reflexivity |]. split; [reflexivity |].
  split.
  { apply Hmatch; [reflexivity |]. vm_compute. by left. }
  split; [| reflexivity].
  destruct (Hmat eq_refl) as (_ & _ & Hprefix).
  apply (Hprefix "#match").
  - vm_compute. by left.
  - split; [done | by exists "ch"].
  - vm_compute. intros [[=] | Hin%elem_of_nil]%elem_of_cons. done.
Defined.

End NoteSearchFacts.

(** * More properties of the search index *)

Module SearchIndexMore.
Import SearchIndex SearchIndexPaths SearchIndexFacts.

Lemma dedup_from_ext (s1 s2 xs : list string) :
  (∀ x, x ∈ s1 ↔ x ∈ s2) → dedup_from s1 xs = dedup_from s2 xs.
Proof.
  revert s1 s2. induction xs as [|y ys IH]; intros s1 s2 Hext; simpl; [done |].
  rewrite (bool_decide_ext (y ∈ s1) (y ∈ s2)) by apply Hext.
  case_bool_decide; [by apply IH |]. f_equal. apply IH.
  intros x. rewrite !elem_of_cons. by rewrite Hext.
Qed.

Lemma dedup_from_prefix (s a b : list string) :
  dedup_from s a `prefix_of` dedup_from s (a ++ b).
Proof.
  revert s. induction a as [|x a IH]; intros s; simpl; [apply prefix_nil |].
  case_bool_decide; [apply IH | apply prefix_cons, IH].
Qed.

(** *** Hashtag buckets as a function of the history *)

Lemma bucket_addAll ops t k :
  startsWithHash k = true →
  default [] (hashtags (addAll t ops) !! k)
  = default [] (hashtags t !! k)
    ++ dedup_from (default [] (hashtags t !! k)) (addedUnder k ops).
Proof.
  intros Hk. revert t. induction ops as [|[k' r] ops IH]; intros t.
  - simpl. by rewrite app_nil_r.
  - rewrite addAll_cons, IH. unfold addedUnder. rewrite filter_cons. simpl.
    destruct (decide (k' = k)) as [-> | Hne].
    + simpl. unfold add. rewrite Hk.
      destruct (bool_decide (r ∈ default [] (hashtags t !! k))) eqn:Hin;
        [done |].
      simpl. rewrite lookup_insert_eq. simpl. rewrite <- app_assoc. simpl.
      do 2 f_equal. apply dedup_from_ext. intros x.
      rewrite elem_of_app, list_elem_of_singleton, elem_of_cons. tauto.
    + assert (Hsame : hashtags (add t k' r) !! k = hashtags t !! k).
      { unfold add. destruct (startsWithHash k'); [| done].
        case_bool_decide; [done |]. simpl. by rewrite lookup_insert_ne. }
      by rewrite Hsame.
Qed.

(** X1: on an index made by [add] calls, the search for a hashtag returns
    exactly the references added under that very hashtag, each once, in the
    order in which they were first added. *)
Theorem Trie_search_hashtag_history
    (lm : Time) (ops : list (string * string)) (k : string) :
  startsWithHash k = true →
  search (built lm ops) k = dedup (addedUnder k ops).
Proof.
  intros Hk. unfold search, built. rewrite Hk.
  rewrite bucket_addAll by done. simpl. by rewrite lookup_empty.
Qed.

Lemma Trie_search_hashtag_history_witness :
  startsWithHash "#todo" = true ∧
  search (built None [("#todo", "b"); ("#done", "c"); ("#todo", "a");
                      ("#todo", "b"); ("todo", "d")]) "#todo" = ["b"; "a"].
Proof.
  split; [reflexivity |].
  rewrite (Trie_search_hashtag_history None _ "#todo" eq_refl). reflexivity.
Defined.

(** *** Titles and hashtags do not meet *)

Lemma hashtag_lookup_add_other t k r q :
  q ≠ k → default [] (hashtags (add t k r) !! q) = default [] (hashtags t !! q).
Proof.
  intros Hne. unfold add. destruct (startsWithHash k); [| done].
  case_bool_decide; [done |]. simpl. by rewrite lookup_insert_ne.
Qed.

(** X2: an insertion changes the answer to a query only within its own
    kind and key: adding under a title key leaves every hashtag search as it
    was, adding under a hashtag leaves every title search and every search
    for another hashtag as it was. *)
Theorem Trie_add_separate (t : Trie) (k r q : string) :
  startsWithHash k ≠ startsWithHash q ∨ (startsWithHash k = true ∧ k ≠ q) →
  search (add t k r) q = search t q.
Proof.
  intros Hsep. unfold search.
  destruct (startsWithHash q) eqn:Hq.
  - apply hashtag_lookup_add_other. intros ->.
    destruct Hsep as [Hne | [_ Hne]]; [congruence | done].
  - destruct (startsWithHash k) eqn:Hk.
    + by rewrite add_hashtag_root.
    + destruct Hsep as [Hne | [Hk' _]]; congruence.
Qed.

Lemma Trie_add_separate_witness :
  search (add sampleTrie "#cat" "refX") "cat" = ["ref1"] ∧
  search (add sampleTrie "todo" "refX") "#todo" = ["refA"].
Proof.
  split.
  - rewrite (Trie_add_separate sampleTrie "#cat" "refX" "cat"); [reflexivity |].
    left. discriminate.
  - rewrite (Trie_add_separate sampleTrie "todo" "refX" "#todo"); [reflexivity |].
    left. discriminate.
Defined.

(** X3: [add] never removes an answer: whatever a query found before an
    insertion it finds after it. *)
Theorem Trie_add_monotone (t : Trie) (k r q x : string) :
  x ∈ search t q → x ∈ search (add t k r) q.
Proof.
  destruct (startsWithHash q) eqn:Hq.
  - unfold search. rewrite Hq. unfold add.
    destruct (startsWithHash k); [| done].
    case_bool_decide; [done |]. simpl.
    destruct (decide (k = q)) as [-> | Hne].
    + rewrite lookup_insert_eq. simpl. intros Hx. apply elem_of_app. by left.
    + by rewrite lookup_insert_ne.
  - rewrite !search_title_found by done. rewrite !elem_of_dedup.
    destruct (startsWithHash k) eqn:Hk.
    + by rewrite add_hashtag_root.
    + unfold add. rewrite Hk. simpl. rewrite found_insertAt. by right.
Qed.

Lemma Trie_add_monotone_witness :
  "ref1" ∈ search sampleTrie "ca" ∧
  "ref1" ∈ search (add sampleTrie "ca" "ref9") "ca".
Proof.
  assert (Hin : "ref1" ∈ search sampleTrie "ca") by (vm_compute; by left).
  split; [exact Hin |].
  exact (Trie_add_monotone sampleTrie "ca" "ref9" "ca" "ref1" Hin).
Defined.

(** *** Repeated titles *)

Lemma prefix_not_hashtag (q k : string) :
  list_ascii_of_string q `prefix_of` list_ascii_of_string k →
  startsWithHash k = false → startsWithHash q = false.
Proof.
  destruct q as [|a q]; [done |]. destruct k as [|b k]; simpl.
  - by intros ?%prefix_nil_inv.
  - by intros ->%prefix_cons_inv_1.
Qed.

Lemma size_add_title_iter t k r n :
  startsWithHash k = false →
  size (Nat.iter n (λ u, add u k r) t) = (size t + Z.of_nat n)%Z.
Proof.
  intros Hk. induction n as [|n IH]; [simpl; lia |].
  rewrite Nat2Z.inj_succ. simpl. rewrite add_title_size, IH by done. lia.
Qed.

(** X4: under a title key nothing is deduplicated on insertion: [n] calls of
    [add] with the same key and reference raise the size by [n]; the
    deduplication happens on the query, so that a search for any prefix of
    the key lists the reference exactly once. *)
Theorem Trie_add_title_repeated (t : Trie) (k r q : string) (n : nat) :
  startsWithHash k = false →
  list_ascii_of_string q `prefix_of` list_ascii_of_string k →
  let t' := Nat.iter (S n) (λ u, add u k r) t in
  size t' = (size t + Z.of_nat (S n))%Z ∧
  length (filter (λ x, x = r) (search t' q)) = 1%nat.
Proof.
  intros Hk Hpre t'. split; [by apply size_add_title_iter |].
  assert (Hq : startsWithHash q = false) by (by eapply prefix_not_hashtag).
  apply NoDup_occurs_once.
  - rewrite search_title_found by done. apply NoDup_dedup.
  - subst t'. simpl. rewrite search_title_found by done.
    rewrite elem_of_dedup. unfold add at 1. rewrite Hk. simpl.
    rewrite found_insertAt. left. by split.
Qed.

Lemma Trie_add_title_repeated_witness :
  startsWithHash "cat" = false ∧
  size (Nat.iter 3 (λ u, add u "cat" "ref1") sampleTrie) = 5%Z ∧
  length (filter (λ x, x = "ref1")
            (search (Nat.iter 3 (λ u, add u "cat" "ref1") sampleTrie) "ca"))
    = 1%nat.
Proof.
  split; [reflexivity |].
  apply (Trie_add_title_repeated sampleTrie "cat" "ref1" "ca" 2 eq_refl).
  by exists ["t"%char].
Defined.

(** *** The empty index and staleness *)

(** X5: a new index answers every query with the empty list, whether the
    query is empty, a title or a hashtag. *)
Theorem Trie_new_search_empty (lm : Time) (q : string) :
  search (newTrie lm) q = [] ∧ size (newTrie lm) = 0%Z.
Proof.
  split; [| done]. unfold search. destruct (startsWithHash q).
  - simpl. by rewrite lookup_empty.
  - simpl. by destruct (list_ascii_of_string q).
Qed.

Lemma timeGt_irrefl (a : Time) : timeGt a a = false.
Proof. destruct a as [x|]; [| done]. simpl. apply Z.ltb_irrefl. Qed.

(** X6: an index made by [add] calls is not stale against the timestamp it
    was made with and the number of its title insertions; after one more
    insertion under a title key it is stale against them, and after any
    number of insertions under hashtags it still is not. *)
Theorem Trie_shouldReindex_detects
    (lm : Time) (ops : list (string * string)) (k r : string) :
  let n := Z.of_nat (length (titleOps ops)) in
  shouldReindex (built lm ops) lm n = false ∧
  (startsWithHash k = false →
     shouldReindex (add (built lm ops) k r) lm n = true) ∧
  (startsWithHash k = true →
     shouldReindex (add (built lm ops) k r) lm n = false).
Proof.
  intros n. unfold shouldReindex.
  assert (Hlm : lastModified (built lm ops) = lm)
    by (unfold built; by rewrite addAll_lastModified).
  split; [| split].
  - rewrite Hlm, timeGt_irrefl, built_size. simpl. subst n.
    by rewrite Z.eqb_refl.
  - intros Hk. rewrite add_lastModified, Hlm, timeGt_irrefl. simpl.
    rewrite add_title_size, built_size by done. subst n.
    apply negb_true_iff, Z.eqb_neq. lia.
  - intros Hk. rewrite add_lastModified, Hlm, timeGt_irrefl. simpl.
    rewrite add_hashtag_size, built_size by done. subst n.
    by rewrite Z.eqb_refl.
Qed.

Lemma Trie_shouldReindex_detects_witness :
  startsWithHash "dog" = false ∧
  shouldReindex (add sampleTrie "dog" "ref3") (Some 0%Z) 2 = true.
Proof.
  split; [reflexivity |].
  destruct (Trie_shouldReindex_detects (Some 0%Z)
              [("cat", "ref1"); ("car", "ref2"); ("#todo", "refA")]
              "dog" "ref3") as (_ & Hstale & _).
  exact (Hstale eq_refl).
Defined.

(** *** Exact matches come first *)

Lemma exactAt_newTrieNode qs ch : exactAt qs (newTrieNode ch) = [].
Proof. unfold exactAt. by destruct qs. Qed.

Lemma exactAt_insertAt (keyChars : list ascii) (ref : string) :
  ∀ (qs : list ascii) (n : TrieNode),
    exactAt qs (insertAt keyChars ref n)
    = exactAt qs n ++ (if decide (qs = keyChars) then [ref] else []).
Proof.
  induction keyChars as [|ch rest IH]; intros qs n.
  - destruct qs as [|q qs]; unfold exactAt; simpl; [done |].
    by rewrite app_nil_r.
  - destruct qs as [|q qs]; unfold exactAt; simpl insertAt; simpl descend.
    + simpl. by rewrite app_nil_r.
    + destruct (decide (q = ch)) as [-> | Hne].
      * rewrite getChild_setChild_eq.
        fold (exactAt qs (insertAt rest ref
          match getChild ch (children n) with
          | Some c => c | None => newTrieNode ch end)).
        rewrite IH.
        assert (Hdec : (if decide (ch :: qs = ch :: rest) then [ref] else [])
                       = (if decide (qs = rest) then [ref] else [] : list string)).
        { destruct (decide (qs = rest)) as [-> | Hq].
          - by rewrite decide_True.
          - rewrite decide_False; [done |]. by intros [= ?]. }
        rewrite Hdec.
        destruct (getChild ch (children n)) as [c|]; [done |].
        by rewrite exactAt_newTrieNode.
      * rewrite getChild_setChild_ne by done.
        rewrite decide_False by (by intros [= ?]). by rewrite app_nil_r.
Qed.

Lemma list_ascii_of_string_inj (a b : string) :
  list_ascii_of_string a = list_ascii_of_string b → a = b.
Proof.
  intros Heq.
  rewrite <- (string_of_list_ascii_of_string a),
          <- (string_of_list_ascii_of_string b). by rewrite Heq.
Qed.

Lemma exactAt_addAll ops t (q : string) :
  startsWithHash q = false →
  exactAt (list_ascii_of_string q) (root (addAll t ops))
  = exactAt (list_ascii_of_string q) (root t) ++ addedUnder q ops.
Proof.
  intros Hq. revert t. induction ops as [|[k r] ops IH]; intros t.
  - simpl. by rewrite app_nil_r.
  - rewrite addAll_cons, IH. unfold addedUnder. rewrite filter_cons. simpl.
    destruct (startsWithHash k) eqn:Hk.
    + rewrite add_hashtag_root by done.
      rewrite decide_False; [done |]. intros ->. congruence.
    + unfold add. rewrite Hk. simpl. rewrite exactAt_insertAt.
      rewrite <- app_assoc. f_equal.
      destruct (decide (k = q)) as [-> | Hne].
      * by rewrite decide_True.
      * rewrite decide_False; [done |].
        intros Heq. apply Hne. symmetry. by apply list_ascii_of_string_inj.
Qed.

(** X7: on an index made by [add] calls, the answer to a title query begins
    with the references added under exactly the query as key, each once, in
    the order in which they were first added; the references of longer keys
    follow them. *)
Theorem Trie_search_exact_first
    (lm : Time) (ops : list (string * string)) (q : string) :
  startsWithHash q = false →
  dedup (addedUnder q ops) `prefix_of` search (built lm ops) q.
Proof.
  intros Hq. unfold search. rewrite Hq.
  pose proof (exactAt_addAll ops (newTrie lm) q Hq) as Hexact.
  change (root (newTrie lm)) with (newTrieNode rootKey) in Hexact.
  rewrite exactAt_newTrieNode in Hexact. simpl in Hexact. rewrite <- Hexact.
  unfold exactAt, built.
  destruct (descend _ _) as [node|]; [| apply prefix_nil].
  rewrite getAllFrom_eq. apply dedup_from_prefix.
Qed.

Lemma Trie_search_exact_first_witness :
  startsWithHash "ca" = false ∧
  ["r3"; "r4"] `prefix_of`
    search (built None [("cat", "r1"); ("ca", "r3"); ("c", "r2");
                        ("ca", "r4"); ("ca", "r3")]) "ca".
Proof.
  split; [reflexivity |].
  exact (Trie_search_exact_first None
           [("cat", "r1"); ("ca", "r3"); ("c", "r2"); ("ca", "r4"); ("ca", "r3")]
           "ca" eq_refl).
Defined.

(** *** The keys of the nodes *)

Lemma keyed_unfold k ns cs :
  keyed (MkTrieNode k ns cs) ↔
  Forall (λ kv, key (snd kv) = fst kv ∧ keyed (snd kv)) cs.
Proof.
  simpl. induction cs as [|kv cs IH]; simpl.
  - split; [constructor | done].
  - by rewrite Forall_cons, IH.
Qed.

Lemma key_insertAt keyChars ref n : key (insertAt keyChars ref n) = key n.
Proof. by destruct keyChars. Qed.

Lemma insertAt_keyed (keyChars : list ascii) (ref : string) :
  ∀ n, keyed n → keyed (insertAt keyChars ref n).
Proof.
  induction keyChars as [|ch rest IH]; intros [k ns cs] Hn; [exact Hn |].
  apply keyed_unfold in Hn. simpl insertAt. apply keyed_unfold.
  set (child := match getChild ch cs with
                | Some c => c | None => newTrieNode ch end).
  assert (Hchild : key child = ch ∧ keyed child).
  { subst child. destruct (getChild ch cs) as [c|] eqn:Hc; [| done].
    rewrite Forall_forall in Hn. by apply (Hn (ch, c)), getChild_elem. }
  apply Forall_forall. intros kv [-> | Hin]%elem_of_setChild.
  - simpl. rewrite key_insertAt. split; [apply Hchild | apply IH, Hchild].
  - rewrite Forall_forall in Hn. by apply Hn.
Qed.

Lemma built_root_invariants lm ops :
  key (root (built lm ops)) = rootKey ∧
  keyed (root (built lm ops)) ∧ wellKeyed (root (built lm ops)).
Proof.
  unfold built.
  assert (Hnew : key (root (newTrie lm)) = rootKey ∧ keyed (root (newTrie lm))
                 ∧ wellKeyed (root (newTrie lm))).
  { simpl. repeat split; constructor. }
  revert Hnew. generalize (newTrie lm).
  induction ops as [|[k r] ops IH]; intros t Ht; [done |].
  rewrite addAll_cons. apply IH. destruct Ht as (Hkey & Hkeyed & Hwk).
  destruct (startsWithHash k) eqn:Hk.
  - by rewrite add_hashtag_root.
  - unfold add. rewrite Hk. simpl. rewrite key_insertAt.
    split; [done |]. split; [by apply insertAt_keyed |].
    by apply insertAt_wellKeyed.
Qed.

Lemma descend_keyed (qs : list ascii) (ch : ascii) :
  ∀ n node, keyed n → descend (qs ++ [ch]) n = Some node → key node = ch.
Proof.
  induction qs as [|q qs IH]; intros [k ns cs] node Hn; simpl.
  - destruct (getChild ch cs) as [c|] eqn:Hc; [| done]. intros [= <-].
    apply keyed_unfold in Hn. rewrite Forall_forall in Hn.
    by apply (Hn (ch, c)), getChild_elem.
  - destruct (getChild q cs) as [c|] eqn:Hc; [| done].
    apply IH. apply keyed_unfold in Hn. rewrite Forall_forall in Hn.
    by apply (Hn (q, c)), getChild_elem.
Qed.

Lemma within_wellKeyed m n : within m n → wellKeyed n → wellKeyed m.
Proof.
  induction 1 as [| n ch c Hin Hw IH]; [done |].
  intros Hn. apply IH. destruct n as [k ns cs].
  apply wellKeyed_unfold in Hn as [_ Hall]. rewrite Forall_forall in Hall.
  by apply (Hall (ch, c)).
Qed.

Lemma jsBefore_sorted_NoDup (ks : list ascii) :
  StronglySorted jsBefore ks → NoDup ks.
Proof.
  induction 1 as [|d ks Hs IH Hd]; constructor; [| done].
  intros Hin. rewrite Forall_forall in Hd.
  by apply (jsBefore_irrefl d), Hd.
Qed.

(** X8: in an index made by [add] calls the root has the NUL key, the node
    reached by a path has as key the last character of the path, and at
    every node the children are stored under pairwise distinct characters
    (listed as [Object.values] lists them). *)
Theorem Trie_node_keys (lm : Time) (ops : list (string * string)) :
  key (root (built lm ops)) = rootKey ∧
  (∀ qs ch node,
      descend (qs ++ [ch]) (root (built lm ops)) = Some node → key node = ch) ∧
  (∀ m, within m (root (built lm ops)) →
      NoDup (map fst (children m)) ∧
      StronglySorted jsBefore (map fst (children m))).
Proof.
  destruct (built_root_invariants lm ops) as (Hkey & Hkeyed & Hwk).
  split; [done |]. split.
  - intros qs ch node. by apply descend_keyed.
  - intros m Hm. pose proof (within_wellKeyed _ _ Hm Hwk) as Hwm.
    destruct m as [k ns cs]. apply wellKeyed_unfold in Hwm as [Hs _].
    split; [by apply jsBefore_sorted_NoDup | done].
Qed.

Lemma Trie_node_keys_witness :
  (key <$> descend ["c"; "a"; "t"]%char (root sampleTrie)) = Some "t"%char ∧
  ∀ node, descend ["c"; "a"; "t"]%char (root sampleTrie) = Some node →
          key node = "t"%char.
Proof.
  split; [reflexivity |].
  destruct (Trie_node_keys (Some 0%Z)
              [("cat", "ref1"); ("car", "ref2"); ("#todo", "refA")])
    as (_ & Hkey & _).
  intros node. exact (Hkey ["c"; "a"]%char "t"%char node).
Defined.

End SearchIndexMore.

(** * More properties of the Notepad operations *)

Module NotepadMore.
Import Store NotepadTree NotepadEdits NotepadFacts.

Section Edits.
Context `{DateFns}.
Variable now : Date.

(** X9: [modified] returns a new Notepad that differs from the receiver in
    [lastModified] alone, which is the formatted argument (the formatted
    current time when there is none); no object that existed is altered. *)
Theorem Notepad_modified_only_timestamp
    (h : heap) (p : loc) (np : NotepadObj) (d : option Date) :
  h !! p = Some (ONotepad np) →
  ∃ h' p2 np2,
    modified now h p d = Some (h', p2) ∧
    h' !! p2 = Some (ONotepad np2) ∧
    np_lastModified np2 = format (default now d) ∧
    np_title np2 = np_title np ∧
    np_sections np2 = np_sections np ∧
    np_notepadAssets np2 = np_notepadAssets np ∧
    np_assets np2 = np_assets np ∧
    h !! p2 = None ∧ unaltered h h'.
Proof.
  intros Hp. eexists _, (length h), _. unfold modified.
  split; [by apply clone_Some |].
  split; [apply lookup_alloc_new |]. simpl.
  repeat (split; [reflexivity |]).
  split; [apply lookup_fresh |].
  intros l o Hl. by apply lookup_alloc_old.
Qed.

(** What a structural edit does to the fields of the Notepad. *)
Lemma runOp_structural h p op h' p' :
  structural op →
  runOp now h p op = Some (h', p') →
  ∃ np np', h !! p = Some (ONotepad np) ∧ h' !! p' = Some (ONotepad np') ∧
    np_title np' = np_title np ∧
    np_lastModified np' = format (parse (np_lastModified np)) ∧
    np_sections np' = np_sections np ++ sectionsAdded op ∧
    np_assets np' = np_assets np ++ assetsAdded op ∧
    np_notepadAssets np' = np_notepadAssets np ++ map uuid (assetsAdded op).
Proof.
  intros Hop Hrun. destruct op as [s | a | d | opts title]; simpl in *;
    [| | done | done].
  - destruct (addSection_inv _ _ _ _ _ _ Hrun) as (np & sec & Hp & Hs).
    rewrite (addSection_Some _ _ _ _ np sec) in Hrun by done.
    injection Hrun as <- <-. eexists np, _. split; [done |].
    split.
    { rewrite list_lookup_insert_ne by (by eapply existing_ne_fresh).
      apply lookup_alloc_new. }
    simpl. by rewrite !app_nil_r.
  - unfold addAsset in Hrun.
    destruct (getNotepad h p) as [np|] eqn:Hp; [| done]. simpl in Hrun.
    apply getNotepad_Some in Hp. rewrite (clone_Some _ _ _ np) in Hrun by done.
    injection Hrun as <- <-. eexists np, _. split; [done |].
    split; [apply lookup_alloc_new |]. simpl. by rewrite app_nil_r.
Qed.

Lemma runOps_structural ops :
  ∀ h p h' p' np,
    Forall structural ops →
    runOps now h p ops = Some (h', p') →
    h !! p = Some (ONotepad np) →
    ∃ np', h' !! p' = Some (ONotepad np') ∧
      np_title np' = np_title np ∧
      np_sections np' = np_sections np ++ flat_map sectionsAdded ops ∧
      np_assets np' = np_assets np ++ flat_map assetsAdded ops ∧
      np_notepadAssets np'
        = np_notepadAssets np ++ map uuid (flat_map assetsAdded ops) ∧
      (format (parse (np_lastModified np)) = np_lastModified np →
       np_lastModified np' = np_lastModified np).
Proof.
  induction ops as [|op ops IH]; intros h p h' p' np Hall Hrun Hp.
  - simpl in Hrun. injection Hrun as <- <-. exists np.
    simpl. by rewrite !app_nil_r.
  - apply Forall_cons in Hall as [Hop Hall]. simpl in Hrun.
    destruct (runOp now h p op) as [[h1 p1]|] eqn:Hstep; [| done].
    destruct (runOp_structural _ _ _ _ _ Hop Hstep)
      as (np0 & np1 & Hp0 & Hp1 & Ht & Hlm & Hss & Has & Hids).
    assert (np0 = np) as -> by congruence.
    destruct (IH _ _ _ _ np1 Hall Hrun Hp1)
      as (np' & Hp' & Ht' & Hss' & Has' & Hids' & Hlm').
    exists np'. split; [done |]. simpl.
    rewrite Ht', Ht, Hss', Hss, Has', Has, Hids', Hids.
    rewrite map_app, <- !app_assoc.
    repeat (split; [reflexivity |]).
    intros Hfix. rewrite Hlm', Hlm; [done |]. by rewrite Hlm, Hfix.
Qed.

(** X10: after any sequence of [addSection] and [addAsset] calls the
    Notepad has the title it had, its sections followed by the sections
    added, in the order of the calls, and likewise its assets and its
    identifiers in use. *)
Theorem Notepad_edits_append
    (ops : list NotepadOp) (h : heap) (p : loc) (h' : heap) (p' : loc)
    (np : NotepadObj) :
  Forall structural ops →
  runOps now h p ops = Some (h', p') →
  h !! p = Some (ONotepad np) →
  ∃ np', h' !! p' = Some (ONotepad np') ∧
    np_title np' = np_title np ∧
    np_sections np' = np_sections np ++ flat_map sectionsAdded ops ∧
    np_assets np' = np_assets np ++ flat_map assetsAdded ops ∧
    np_notepadAssets np'
      = np_notepadAssets np ++ map uuid (flat_map assetsAdded ops).
Proof.
  intros Hall Hrun Hp.
  destruct (runOps_structural ops _ _ _ _ np Hall Hrun Hp)
    as (np' & Hp' & Ht & Hss & Has & Hids & _).
  by exists np'.
Qed.

(** X11: a structural edit writes [lastModified] anew, as the formatted
    parse of the receiver's; so when [format (parse s)] gives back the
    receiver's [lastModified], any sequence of [addSection] and [addAsset]
    calls leaves [lastModified] as it was. *)
Theorem Notepad_edits_keep_lastModified
    (ops : list NotepadOp) (h : heap) (p : loc) (h' : heap) (p' : loc)
    (np : NotepadObj) :
  Forall structural ops →
  runOps now h p ops = Some (h', p') →
  h !! p = Some (ONotepad np) →
  ∃ np', h' !! p' = Some (ONotepad np') ∧
    (∀ op, ops = [op] →
       np_lastModified np' = format (parse (np_lastModified np))) ∧
    (format (parse (np_lastModified np)) = np_lastModified np →
     np_lastModified np' = np_lastModified np).
Proof.
  intros Hall Hrun Hp.
  destruct (runOps_structural ops _ _ _ _ np Hall Hrun Hp)
    as (np' & Hp' & _ & _ & _ & _ & Hlm).
  exists np'. split; [done |]. split; [| done].
  intros op ->. apply Forall_cons in Hall as [Hop _]. simpl in Hrun.
  destruct (runOp now h p op) as [[h1 p1]|] eqn:Hstep; [| done].
  injection Hrun as <- <-.
  destruct (runOp_structural _ _ _ _ _ Hop Hstep)
    as (np0 & np1 & Hp0 & Hp1 & _ & Hlm1 & _).
  congruence.
Qed.

(** X12: [addSection] links the Section it is given and no other: after
    [p.addSection(s1).addSection(s2)] the back-reference of [s2] refers to
    the Notepad returned, that of [s1] still refers to the intermediate
    Notepad, and the Sections that [p] held are as they were. *)
Theorem Notepad_addSection_no_relink
    (h : heap) (p s1 s2 : loc) (np : NotepadObj) (sec1 sec2 : SectionObj) :
  h !! p = Some (ONotepad np) →
  h !! s1 = Some (OSection sec1) →
  h !! s2 = Some (OSection sec2) →
  s1 ≠ s2 →
  ∃ h1 p1 h2 p2 np2,
    addSection now h p s1 = Some (h1, p1) ∧
    addSection now h1 p1 s2 = Some (h2, p2) ∧
    h2 !! p2 = Some (ONotepad np2) ∧
    np_sections np2 = np_sections np ++ [s1; s2] ∧
    parentOf h2 s1 = Some (Some p1) ∧
    parentOf h2 s2 = Some (Some p2) ∧
    p1 ≠ p2 ∧
    (∀ s o, s ≠ s1 → s ≠ s2 → h !! s = Some o → h2 !! s = Some o).
Proof.
  intros Hp Hs1 Hs2 Hne.
  pose proof (existing_ne_fresh _ _ _ Hp) as Hpn.
  pose proof (existing_ne_fresh _ _ _ Hs1) as Hs1n.
  pose proof (existing_ne_fresh _ _ _ Hs2) as Hs2n.
  set (np1 := cloneObj now np
                {| opt_lastModified := None;
                   opt_sections := Some (np_sections np ++ [s1]);
                   opt_notepadAssets := None; opt_assets := None |} None).
  set (h1 := <[s1 := OSection (withSectionParent sec1 (Some (length h)))]>
               (h ++ [ONotepad np1])).
  assert (Hlen1 : length h1 = S (length h)).
  { subst h1. rewrite length_insert, length_app. simpl. lia. }
  assert (Hp1 : h1 !! length h = Some (ONotepad np1)).
  { subst h1. rewrite list_lookup_insert_ne by done. apply lookup_alloc_new. }
  assert (Hs2' : h1 !! s2 = Some (OSection sec2)).
  { subst h1. rewrite list_lookup_insert_ne by done. by apply lookup_alloc_old. }
  assert (Hs1' : h1 !! s1
                 = Some (OSection (withSectionParent sec1 (Some (length h))))).
  { subst h1. apply list_lookup_insert_eq. rewrite length_app.
    apply lookup_lt_Some in Hs1. lia. }
  exists h1, (length h). eexists _, (length h1), _.
  split; [by apply addSection_Some |].
  split; [by apply (addSection_Some now h1 (length h) s2 np1 sec2) |].
  assert (Hs2n1 : s2 ≠ length h1) by (by eapply existing_ne_fresh).
  assert (Hs1n1 : s1 ≠ length h1) by (by eapply existing_ne_fresh).
  split; [rewrite list_lookup_insert_ne by done; apply lookup_alloc_new |].
  split; [simpl; by rewrite <- app_assoc |].
  split.
  { unfold parentOf, getSection.
    rewrite list_lookup_insert_ne by done.
    by rewrite (lookup_alloc_old _ _ _ _ Hs1'). }
  split.
  { unfold parentOf, getSection.
    rewrite list_lookup_insert_eq; [done |].
    rewrite length_app. apply lookup_lt_Some in Hs2'. lia. }
  split; [lia |].
  intros s o Hn1 Hn2 Hs.
  rewrite list_lookup_insert_ne by done. apply lookup_alloc_old.
  subst h1. rewrite list_lookup_insert_ne by done. by apply lookup_alloc_old.
Qed.


(** X17: [clone()] without options makes a copy: when [format (parse s)]
    gives back the receiver's [lastModified], the new object has the fields
    of the receiver, under the new title when one is given; it is a new
    object and no object that existed is altered. *)
Theorem Notepad_clone_copy
    (h : heap) (p : loc) (np : NotepadObj) (title : option string) :
  h !! p = Some (ONotepad np) →
  format (parse (np_lastModified np)) = np_lastModified np →
  ∃ h' p2,
    clone now h p noOptions title = Some (h', p2) ∧
    h' !! p2 = Some (ONotepad (withTitle np (default (np_title np) title))) ∧
    p2 ≠ p ∧ h !! p2 = None ∧ unaltered h h'.
Proof.
  intros Hp Hfix. exists (h ++ [ONotepad (cloneObj now np noOptions title)]),
    (length h).
  split; [by apply clone_Some |].
  split.
  { rewrite lookup_alloc_new. unfold cloneObj, newNotepad, withTitle. simpl.
    by rewrite Hfix. }
  split; [symmetry; by eapply existing_ne_fresh |].
  split; [apply lookup_fresh |].
  intros l o Hl. by apply lookup_alloc_old.
Qed.

End Edits.

Lemma Notepad_clone_copy_witness :
  ∃ h' p2,
    @clone textDates "2018-01-02" [ONotepad emptyNotepad] 0
      (@noOptions textDates) (Some "copy") = Some (h', p2) ∧
    h' !! p2 = Some (ONotepad (withTitle emptyNotepad "copy")).
Proof.
  destruct (@Notepad_clone_copy textDates "2018-01-02" [ONotepad emptyNotepad]
              0%nat emptyNotepad (Some "copy") eq_refl eq_refl)
    as (h' & p2 & Hrun & Hp2 & _).
  by exists h', p2.
Defined.

Lemma Notepad_modified_only_timestamp_witness :
  [ONotepad emptyNotepad] !! 0%nat = Some (ONotepad emptyNotepad) ∧
  ∃ h' p2 np2,
    @modified textDates "2018-01-02" [ONotepad emptyNotepad] 0 (Some "2018-03-04")
      = Some (h', p2) ∧
    h' !! p2 = Some (ONotepad np2) ∧
    np_lastModified np2 = "2018-03-04" ∧
    np_title np2 = "notes".
Proof.
  split; [reflexivity |].
  destruct (@Notepad_modified_only_timestamp textDates "2018-01-02"
              [ONotepad emptyNotepad] 0%nat emptyNotepad (Some "2018-03-04")
              eq_refl)
    as (h' & p2 & np2 & Hrun & Hp2 & Hlm & Ht & _).
  exists h', p2, np2. by repeat split.
Defined.

Lemma sampleEdits_structural : Forall (@structural textDates) sampleEdits.
Proof. repeat constructor. Qed.

Lemma Notepad_edits_append_witness :
  ∃ h' p' np',
    @runOps textDates "2018-01-02" twoSectionStore 0 sampleEdits = Some (h', p') ∧
    h' !! p' = Some (ONotepad np') ∧
    np_sections np' = [1%nat; 2%nat] ∧
    np_assets np' = [sampleAsset] ∧
    np_notepadAssets np' = ["uuid-1"].
Proof.
  eexists _, _. 
  assert (Hrun : @runOps textDates "2018-01-02" twoSectionStore 0 sampleEdits
                 = Some (default [] (fst <$> @runOps textDates "2018-01-02"
                                       twoSectionStore 0 sampleEdits),
                         5%nat)) by reflexivity.
  destruct (@Notepad_edits_append textDates "2018-01-02" sampleEdits
              twoSectionStore 0%nat _ _ emptyNotepad
              sampleEdits_structural Hrun eq_refl)
    as (np' & Hp' & _ & Hss & Has & Hids).
  exists np'. split; [exact Hrun |]. by repeat split.
Defined.

Lemma Notepad_edits_keep_lastModified_witness :
  ∃ h' p' np',
    @runOps textDates "2018-01-02" twoSectionStore 0 sampleEdits = Some (h', p') ∧
    h' !! p' = Some (ONotepad np') ∧
    np_lastModified np' = "2018-01-01".
Proof.
  eexists _, _.
  assert (Hrun : @runOps textDates "2018-01-02" twoSectionStore 0 sampleEdits
                 = Some (default [] (fst <$> @runOps textDates "2018-01-02"
                                       twoSectionStore 0 sampleEdits),
                         5%nat)) by reflexivity.
  destruct (@Notepad_edits_keep_lastModified textDates "2018-01-02" sampleEdits
              twoSectionStore 0%nat _ _ emptyNotepad
              sampleEdits_structural Hrun eq_refl)
    as (np' & Hp' & _ & Hlm).
  exists np'. split; [exact Hrun |]. split; [exact Hp' |]. exact (Hlm eq_refl).
Defined.

Lemma Notepad_addSection_no_relink_witness :
  (1 ≠ 2)%nat ∧
  ∃ h1 p1 h2 p2,
    @addSection textDates "2018-01-02" twoSectionStore 0 1 = Some (h1, p1) ∧
    @addSection textDates "2018-01-02" h1 p1 2 = Some (h2, p2) ∧
    parentOf h2 1 = Some (Some p1) ∧
    parentOf h2 2 = Some (Some p2) ∧
    p1 ≠ p2.
Proof.
  split; [lia |].
  destruct (@Notepad_addSection_no_relink textDates "2018-01-02"
              twoSectionStore 0%nat 1%nat 2%nat _ _ _ eq_refl eq_refl eq_refl)
    as (h1 & p1 & h2 & p2 & np2 & Hr1 & Hr2 & _ & _ & Hq1 & Hq2 & Hne & _);
    [lia |].
  exists h1, p1, h2, p2. by repeat split.
Defined.


End NotepadMore.

(** * Properties of the translation of a Jupyter notebook *)

Module JupyterFacts.
Import Jupyter.

Lemma append_cons (c : ascii) (a b : string) :
  String c a +:+ b = String c (a +:+ b).
Proof. reflexivity. Qed.

Lemma append_nil_l (a : string) : "" +:+ a = a.
Proof. reflexivity. Qed.

Lemma append_nil_r (a : string) : a +:+ "" = a.
Proof. induction a as [|c a IH]; [done |]. by rewrite append_cons, IH. Qed.

Lemma append_assoc (a b c : string) : (a +:+ b) +:+ c = a +:+ (b +:+ c).
Proof.
  induction a as [|x a IH]; [done |]. by rewrite !append_cons, IH.
Qed.

Lemma joinAll_cons (x : string) (xs : list string) :
  joinAll (x :: xs) = x +:+ joinAll xs.
Proof. reflexivity. Qed.

Lemma joinAll_app (xs ys : list string) :
  joinAll (xs ++ ys) = joinAll xs +:+ joinAll ys.
Proof.
  induction xs as [|x xs IH]; [done |].
  rewrite <- app_comm_cons, !joinAll_cons, IH. by rewrite append_assoc.
Qed.

Lemma fold_append {A : Type} (g : A → string) (l : list A) (acc : string) :
  fold_left (λ a x, a +:+ g x) l acc = acc +:+ joinAll (map g l).
Proof.
  revert acc. induction l as [|x l IH]; intros acc; cbn [fold_left map].
  - by rewrite append_nil_r.
  - by rewrite IH, joinAll_cons, append_assoc.
Qed.

Lemma addLines_text mdString lines :
  addLines mdString lines = mdString +:+ linesText lines.
Proof. unfold addLines, linesText. apply fold_append. Qed.

Lemma addOutput_text mdString output :
  addOutput mdString output = mdString +:+ outputText output.
Proof.
  unfold addOutput, outputText. destruct (out_text output) as [text|].
  - rewrite (fold_append id). rewrite map_id. by rewrite !append_assoc.
  - by rewrite append_nil_r.
Qed.

Lemma fold_addOutput outs mdString :
  fold_left addOutput outs mdString
  = mdString +:+ joinAll (map outputText outs).
Proof.
  revert mdString. induction outs as [|o outs IH]; intros mdString;
    cbn [fold_left map].
  - by rewrite append_nil_r.
  - by rewrite IH, addOutput_text, joinAll_cons, append_assoc.
Qed.

Lemma addCell_text mdString cell :
  addCell mdString cell = mdString +:+ cellText cell.
Proof.
  unfold addCell, cellText.
  destruct (bool_decide (cell_type cell = "markdown")) eqn:Hmd.
  - apply bool_decide_eq_true in Hmd.
    rewrite bool_decide_eq_false_2 by (rewrite Hmd; discriminate).
    apply addLines_text.
  - destruct (bool_decide (cell_type cell = "code")).
    + rewrite fold_addOutput, addLines_text. by rewrite !append_assoc.
    + by rewrite append_nil_r.
Qed.

Lemma toMarkdown_cells (cells : list Cell) :
  toMarkdownFromJupyter cells = joinAll (map cellText cells).
Proof.
  assert (Hfold : ∀ cells acc,
            fold_left addCell cells acc = acc +:+ joinAll (map cellText cells)).
  { clear cells. induction cells as [|c cells IH]; intros acc;
      cbn [fold_left map].
    - by rewrite append_nil_r.
    - by rewrite IH, addCell_text, joinAll_cons, append_assoc. }
  unfold toMarkdownFromJupyter. by rewrite Hfold.
Qed.

(** X15: the text that [toMarkdownFromJupyter] accumulates is the texts of
    the cells one after the other, where a markdown cell gives its source
    lines, each ended by a newline, a code cell gives its lines and the
    printed outputs between two fences, and any other cell gives nothing;
    so translating the cells of two notebooks in a row gives the two
    translations in a row, and no cells give the empty text. *)
Theorem toMarkdownFromJupyter_text :
  (∀ cells, toMarkdownFromJupyter cells = joinAll (map cellText cells)) ∧
  (∀ cells1 cells2,
      toMarkdownFromJupyter (cells1 ++ cells2)
      = toMarkdownFromJupyter cells1 +:+ toMarkdownFromJupyter cells2) ∧
  toMarkdownFromJupyter [] = "".
Proof.
  split; [apply toMarkdown_cells |]. split; [| done].
  intros cells1 cells2. by rewrite !toMarkdown_cells, map_app, joinAll_app.
Qed.

Lemma outputText_unprinted o : ¬ printedOutput o → outputText o = "".
Proof.
  unfold printedOutput, outputText. destruct (out_text o); [| done].
  intros Hno. by destruct Hno.
Qed.

Lemma joinAll_filter {A : Type} (P : A → Prop) `{!∀ x, Decision (P x)}
    (g : A → string) (l : list A) :
  (∀ x, ¬ P x → g x = "") →
  joinAll (map g (filter P l)) = joinAll (map g l).
Proof.
  intros Hskip. induction l as [|x l IH]; [done |].
  rewrite filter_cons. destruct (decide (P x)) as [Hx | Hx]; cbn [map].
  - by rewrite !joinAll_cons, IH.
  - by rewrite joinAll_cons, (Hskip x Hx), IH.
Qed.

Lemma cellText_dropUnprinted cell : cellText (dropUnprinted cell) = cellText cell.
Proof.
  unfold cellText, dropUnprinted. simpl.
  by rewrite (joinAll_filter printedOutput outputText _ outputText_unprinted).
Qed.

Lemma cellText_unread cell : ¬ readCell cell → cellText cell = "".
Proof.
  unfold readCell, cellText. intros Hno.
  rewrite !bool_decide_eq_false_2; [done | tauto | tauto].
Qed.

(** X16: cells whose type is neither "markdown" nor "code", and outputs
    without [text], leave no trace: the translation is that of the notebook
    without them. *)
Theorem toMarkdownFromJupyter_ignores (cells : list Cell) :
  toMarkdownFromJupyter cells
  = toMarkdownFromJupyter (map dropUnprinted (filter readCell cells)).
Proof.
  rewrite !toMarkdown_cells, map_map.
  rewrite (map_ext _ cellText cellText_dropUnprinted).
  by rewrite (joinAll_filter readCell cellText _ cellText_unread).
Qed.

Example toMarkdownFromJupyter_sample :
  toMarkdownFromJupyter sampleNotebook
  = "# Title" +:+ newline +:+ "text" +:+ newline +:+ newline +:+ "```"
    +:+ newline +:+ "print(1)" +:+ newline +:+ newline
    +:+ "--------------------" +:+ newline +:+ "Output:" +:+ newline +:+ "1"
    +:+ newline +:+ "--------------------" +:+ newline +:+ "```" +:+ newline.
Proof. reflexivity. Qed.

End JupyterFacts.

(** * The order of the walk of flatten *)

Module FlatWalkFacts.
Import Store Flat FlatWalk NotepadFacts FlattenFacts RoundTripFacts.

Lemma mapM_app_Some {A B : Type} (g : A → option B) l1 l2 k1 k2 :
  mapM g l1 = Some k1 → mapM g l2 = Some k2 →
  mapM g (l1 ++ l2) = Some (k1 ++ k2).
Proof. rewrite !mapM_Some. apply Forall2_app. Qed.

Lemma forEach_logNote h nls log :
  forEach (logNote h) nls log = Some (log ++ map EmitNote nls).
Proof.
  revert log. induction nls as [|nl nls IH]; intros log; simpl.
  - by rewrite app_nil_r.
  - rewrite IH. by rewrite <- app_assoc.
Qed.

Lemma events_notes h nls ns :
  mapM (λ nl, noteTOf <$> getNote h nl) nls = Some ns →
  mapM (eventOf h) (map EmitNote nls) = Some (map inr ns).
Proof.
  rewrite !mapM_Some. intros Hall. apply Forall2_fmap.
  eapply Forall2_impl; [exact Hall |]. simpl. intros nl n Hn.
  destruct (getNote h nl); by simplify_eq/=.
Qed.

(** A run of [flattenSection] appends to the log the walk of the tree. *)
Lemma flattenSectionLog_walk fuel h :
  ∀ l t log log',
    sectionTree fuel h l = Some t →
    flattenSectionLog fuel h log l = Some log' →
    ∃ ext, log' = log ++ ext ∧ mapM (eventOf h) ext = Some (walk t).
Proof.
  induction fuel as [|fuel IH]; intros l t log log'; [done |].
  simpl. destruct (getSection h l) as [sec|]; [| done]. simpl.
  destruct (mapM (sectionTree fuel h) (sec_sections sec)) as [kids|] eqn:Hkids;
    [| done]. simpl.
  destruct (mapM _ (sec_notes sec)) as [ns|] eqn:Hns; [| done]. simpl.
  intros [= <-].
  destruct (descriptor h sec) as [flat|] eqn:Hflat; [| done]. simpl.
  rewrite forEach_logNote. simpl.
  assert (Hall : ∀ log0 log1,
    forEach (flattenSectionLog fuel h) (sec_sections sec) log0 = Some log1 →
    ∃ ext, log1 = log0 ++ ext
           ∧ mapM (eventOf h) ext = Some (flat_map walk kids)).
  { clear Hns Hflat. revert kids Hkids.
    induction (sec_sections sec) as [|c cs IHcs]; intros kids Hkids log0 log1.
    - injection Hkids as <-. simpl. intros [= <-]. exists [].
      by rewrite app_nil_r.
    - apply mapM_cons_Some in Hkids as (k & kids' & Hk & Hkids' & ->).
      simpl. destruct (flattenSectionLog fuel h log0 c) as [log2|] eqn:Hc;
        [| done].
      intros Hrest.
      destruct (IH _ _ _ _ Hk Hc) as (ext1 & -> & Hext1).
      destruct (IHcs _ Hkids' _ _ Hrest) as (ext2 & -> & Hext2).
      exists (ext1 ++ ext2). split; [by rewrite app_assoc |].
      by apply mapM_app_Some. }
  intros Hrun. destruct (Hall _ _ Hrun) as (ext & -> & Hext).
  exists ([EmitSection flat] ++ map EmitNote (sec_notes sec) ++ ext).
  split; [unfold logSection; by rewrite <- !app_assoc |].
  destruct (descriptor_fields _ _ _ Hflat) as (Ht & Hr & _).
  apply (mapM_app_Some (eventOf h) [EmitSection flat] _
           [inl (sec_title sec, sec_internalRef sec)]);
    [simpl; by rewrite Ht, Hr |].
  apply mapM_app_Some; [by apply events_notes | done].
Qed.

(** X14: [flatten] walks the Notepad depth-first: the calls it makes on the
    FlatNotepad are, in order and for each top-level Section in turn, the
    descriptor of a Section, then its Notes one by one, then the same for
    each of its child Sections. *)
Theorem flatten_walks_depth_first `{DateFns}
    (fuel : nat) (h : heap) (N : loc) (np : NotepadObj) (T : NotepadT) :
  h !! N = Some (ONotepad np) →
  forallb (readable fuel h) (np_sections np) = true →
  notepadTree fuel h N = Some T →
  ∃ log,
    flattenLog fuel h N = Some log ∧
    mapM (eventOf h) log = Some (flat_map walk (t_sections T)).
Proof.
  intros HN Hread. unfold notepadTree, flattenLog, flatten.
  rewrite (proj2 (getNotepad_Some _ _ _) HN). simpl.
  destruct (mapM (sectionTree fuel h) (np_sections np)) as [F|] eqn:HF; [| done].
  simpl. intros [= <-]. simpl. fold flattenSectionLog.
  destruct (forEach_total (flattenSectionLog fuel h) (np_sections np) [])
    as [log Hlog].
  { intros a x Hx. apply flattenSectionLog_total.
    rewrite forallb_forall in Hread. apply Hread. by apply list_elem_of_In. }
  exists log. split; [done |].
  assert (Hall : ∀ ls F log0 log1,
    mapM (sectionTree fuel h) ls = Some F →
    forEach (flattenSectionLog fuel h) ls log0 = Some log1 →
    ∃ ext, log1 = log0 ++ ext ∧ mapM (eventOf h) ext = Some (flat_map walk F)).
  { clear. induction ls as [|c cs IHcs]; intros F log0 log1 HF.
    - injection HF as <-. simpl. intros [= <-]. exists [].
      by rewrite app_nil_r.
    - apply mapM_cons_Some in HF as (k & F' & Hk & HF' & ->).
      simpl. destruct (flattenSectionLog fuel h log0 c) as [log2|] eqn:Hc;
        [| done].
      intros Hrest.
      destruct (flattenSectionLog_walk _ _ _ _ _ _ Hk Hc) as (ext1 & -> & Hext1).
      destruct (IHcs _ _ _ HF' Hrest) as (ext2 & -> & Hext2).
      exists (ext1 ++ ext2). split; [by rewrite app_assoc |].
      by apply mapM_app_Some. }
  destruct (Hall _ _ _ _ HF Hlog) as (ext & -> & Hext). done.
Qed.

Lemma flatten_walks_depth_first_witness :
  forallb (readable 3 nestedStore) [7%nat] = true ∧
  ∃ log,
    @flattenLog NotepadTree.textDates 3 nestedStore nestedNotepad = Some log ∧
    mapM (eventOf nestedStore) log
      = Some [ inl ("a", "ref-a"); inl ("b", "ref-b");
               inr {| nt_title := "n"; nt_time := 0;
                      nt_elements := [{| el_type := "markdown";
                                         el_content := "#todo";
                                         el_args := [] |}];
                      nt_bibliography := []; nt_internalRef := "ref-n" |};
               inl ("c", "ref-c") ].
Proof.
  split; [reflexivity |].
  exact (@flatten_walks_depth_first NotepadTree.textDates 3 nestedStore
           nestedNotepad _ _ eq_refl eq_refl eq_refl).
Defined.

End FlatWalkFacts.

(** * Properties of the elements parsed from an NPX note *)

Module NpxElementsFacts.
Import NpxElements RoundTripFacts.









End NpxElementsFacts.
